(** * Read-Subtitle: the subtitle parser and the reader's playback state

    A shallow embedding of [parseSubtitles] (src/server.ts) and of the
    playback, active-line and translation logic of [ReaderView]
    (the reader component), with the properties of the specification
    stated and proved over it.

    JavaScript values are modelled as the code has them: a string is its
    sequence of UTF-16 code units, a number is an IEEE-754 binary64 float
    (Rocq's primitive floats), [Record<number, string>] is a finite map. *)

From Stdlib Require Import ZArith NArith List String Ascii Bool Lia Floats.
From stdpp Require Import base option list gmap.
Import ListNotations.

#[local] Set Warnings "-inexact-float".
Local Open Scope N_scope.

(** ** JavaScript strings and the built-ins the program calls *)

Module JS.

(** A string is a list of UTF-16 code units. *)
Definition jsstring := list N.

(** Code units of an ASCII literal. *)
Definition str (s : string) : jsstring :=
  map N_of_ascii (list_ascii_of_string s).

Definition LF : N := 10.
Definition CR : N := 13.
Definition SPACE : N := 32.
Definition COMMA : N := 44.
Definition PERIOD : N := 46.
Definition COLON : N := 58.
Definition LBRACE : N := 123.
Definition RBRACE : N := 125.

Fixpoint eqb (s t : jsstring) : bool :=
  match s, t with
  | [], [] => true
  | c :: s', d :: t' => (c =? d) && eqb s' t'
  | _, _ => false
  end.

(** Truthiness of a string: every string but the empty one. *)
Definition truthy (s : jsstring) : bool :=
  match s with [] => false | _ :: _ => true end.

(** ECMAScript LineTerminator. *)
Definition is_line_terminator (c : N) : bool :=
  (c =? 10) || (c =? 13) || (c =? 8232) || (c =? 8233).

(** ECMAScript WhiteSpace or LineTerminator: what [trim] and [parseFloat]
    strip. *)
Definition is_ws (c : N) : bool :=
  (c =? 9) || (c =? 11) || (c =? 12) || (c =? 32) || (c =? 160)
  || (c =? 5760) || ((8192 <=? c) && (c <=? 8202)) || (c =? 8239)
  || (c =? 8287) || (c =? 12288) || (c =? 65279) || is_line_terminator c.

Fixpoint trimStart (s : jsstring) : jsstring :=
  match s with
  | [] => []
  | c :: s' => if is_ws c then trimStart s' else s
  end.

Fixpoint trimEnd (s : jsstring) : jsstring :=
  match s with
  | [] => []
  | c :: s' =>
      match trimEnd s' with
      | [] => if is_ws c then [] else [c]
      | t => c :: t
      end
  end.

(** [String.prototype.trim] *)
Definition trim (s : jsstring) : jsstring := trimEnd (trimStart s).

(** [String.prototype.split] with a one-code-unit separator. *)
Fixpoint split (sep : N) (s : jsstring) : list jsstring :=
  match s with
  | [] => [[]]
  | c :: s' =>
      if c =? sep then [] :: split sep s'
      else match split sep s' with
           | [] => [[c]]
           | w :: ws => (c :: w) :: ws
           end
  end.

(** [Array.prototype.join] with a one-code-unit separator. *)
Fixpoint join (sep : N) (l : list jsstring) : jsstring :=
  match l with
  | [] => []
  | [w] => w
  | w :: ws => w ++ sep :: join sep ws
  end.

(** [String.prototype.startsWith] *)
Fixpoint startsWith (p s : jsstring) : bool :=
  match p, s with
  | [], _ => true
  | c :: p', d :: s' => (c =? d) && startsWith p' s'
  | _ :: _, [] => false
  end.

(** [s.replace(a, b)] with one-code-unit strings [a] and [b]: the first
    occurrence only. *)
Fixpoint replace_first (a b : N) (s : jsstring) : jsstring :=
  match s with
  | [] => []
  | c :: s' => if c =? a then b :: s' else c :: replace_first a b s'
  end.

(** [s.replace(/\r\n/g, '\n')] *)
Fixpoint replace_crlf (s : jsstring) : jsstring :=
  match s with
  | [] => []
  | c :: s' =>
      if c =? CR then
        match s' with
        | d :: s'' => if d =? LF then LF :: replace_crlf s''
                      else c :: replace_crlf s'
        | [] => [c]
        end
      else c :: replace_crlf s'
  end.

(** *** Regular expressions of fixed shape

    A pattern without repetition is a list of character classes; it
    matches a prefix of the subject of the same length. *)

Definition is_digit (c : N) : bool := (48 <=? c) && (c <=? 57).

Fixpoint match_prefix (p : list (N -> bool)) (s : jsstring)
  : option (jsstring * jsstring) :=
  match p with
  | [] => Some ([], s)
  | cl :: p' =>
      match s with
      | [] => None
      | c :: s' =>
          if cl c then
            match match_prefix p' s' with
            | Some (m, r) => Some (c :: m, r)
            | None => None
            end
          else None
      end
  end.

Definition lit (s : string) : list (N -> bool) := map N.eqb (str s).

(** *** Numbers

    A number is a binary64 float.  [a >= b] and [a <= b] are IEEE
    comparisons: false as soon as one side is NaN. *)

Definition number := float.

Definition ge (a b : number) : bool := PrimFloat.leb b a.
Definition le (a b : number) : bool := PrimFloat.leb a b.
Definition gt (a b : number) : bool := PrimFloat.ltb b a.

(** The decimal [m * 10^e10], signed, rounded to the nearest binary64
    (ties to even), as [StringToNumber] rounds. *)
Definition decimal_to_number (neg : bool) (m e10 : Z) : number :=
  SF2Prim
    match m with
    | Zpos p =>
        match e10 with
        | Zneg k =>
            let '(q, e, l) :=
              SFdiv_core_binary prec emax (Zpos p) 0 (Z.pow_pos 10 k) 0 in
            binary_round_aux prec emax neg q e l
        | Z0 => binary_round prec emax neg p 0
        | Zpos k => binary_round prec emax neg (p * Pos.pow 10 k) 0
        end
    | _ => S754_zero neg
    end.

Fixpoint span_digits (s : jsstring) : jsstring * jsstring :=
  match s with
  | [] => ([], [])
  | c :: s' =>
      if is_digit c then let '(ds, r) := span_digits s' in (c :: ds, r)
      else ([], s)
  end.

Definition digits_value (ds : jsstring) : Z :=
  fold_left (fun a c => (10 * a + Z.of_N (c - 48))%Z) ds 0%Z.

(** An optional sign: whether it is a minus, and what follows. *)
Definition sign_part (s : jsstring) : bool * jsstring :=
  match s with
  | c :: s' => if c =? 45 then (true, s')
               else if c =? 43 then (false, s') else (false, s)
  | [] => (false, s)
  end.

(** The value of an ExponentPart ([e] or [E], optional sign, one digit
    at least) at the head of [s]; 0 when there is none. *)
Definition exponent_part (s : jsstring) : Z :=
  match s with
  | c :: s1 =>
      if (c =? 101) || (c =? 69) then
        let '(neg, s2) := sign_part s1 in
        match span_digits s2 with
        | ([], _) => 0%Z
        | (ds, _) => if neg then (- digits_value ds)%Z else digits_value ds
        end
      else 0%Z
  | [] => 0%Z
  end.

(** [parseFloat]: leading white space is skipped, the longest prefix that
    is a StrDecimalLiteral is converted, NaN when there is none. *)
Definition parseFloat (s : jsstring) : number :=
  let '(neg, s1) := sign_part (trimStart s) in
  if startsWith (str "Infinity") s1 then
    if neg then neg_infinity else infinity
  else
    let '(ip, s2) := span_digits s1 in
    let '(fp, s3) :=
      match s2 with
      | c :: r => if c =? PERIOD then span_digits r else ([], s2)
      | [] => ([], s2)
      end in
    match ip ++ fp with
    | [] => nan
    | ds => decimal_to_number neg (digits_value ds)
              (exponent_part s3 - Z.of_nat (length fp))
    end.

(** [parseFloat(x)] where [x] is a destructured array element: a missing
    element is [undefined], whose string form is not a number. *)
Definition parseFloat_elem (x : option jsstring) : number :=
  match x with
  | Some s => parseFloat s
  | None => nan
  end.

End JS.

Import JS.

(** ** The server's parser (src/server.ts) *)

Module Server.

Record Cue := { start : jsstring; end_ : jsstring; text : jsstring }.

(** [\d{2}:\d{2}:\d{2}[,.]\d{3}] *)
Definition timestamp_re : list (N -> bool) :=
  [ is_digit; is_digit; N.eqb COLON; is_digit; is_digit; N.eqb COLON;
    is_digit; is_digit; (fun c => (c =? COMMA) || (c =? PERIOD));
    is_digit; is_digit; is_digit ].

(** [timeRegex] tried at the head of [s]: its two capture groups. *)
Definition timeRegex_here (s : jsstring) : option (jsstring * jsstring) :=
  '(g1, r1) ← match_prefix timestamp_re s;
  '(_, r2) ← match_prefix (lit " --> ") r1;
  '(g2, _) ← match_prefix timestamp_re r2;
  Some (g1, g2).

(** [line.match(timeRegex)]: the leftmost match. *)
Fixpoint timeMatch (line : jsstring) : option (jsstring * jsstring) :=
  match timeRegex_here line with
  | Some m => Some m
  | None =>
      match line with
      | [] => None
      | _ :: line' => timeMatch line'
      end
  end.

(** The loop state of the .srt/.vtt branch: the object [current] ([{}]
    is [None]; its three fields are always assigned together, so it is
    open exactly when [current.start] is truthy) and the array [result]. *)
Record Blocks := { current : option Cue; result : list Cue }.

(** The body of [lines.forEach] in the .srt/.vtt branch. *)
Definition srt_line (st : Blocks) (line : jsstring) : Blocks :=
  match timeMatch line with
  | Some (g1, g2) =>
      {| current := Some {| start := replace_first COMMA PERIOD g1;
                            end_ := replace_first COMMA PERIOD g2;
                            text := [] |};
         result := result st |}
  | None =>
      match current st with
      | Some c =>
          if eqb (trim line) [] then
            {| current := None; result := result st ++ [c] |}
          else
            {| current :=
                 Some {| start := start c; end_ := end_ c;
                         text := text c
                                 ++ (if truthy (text c) then [SPACE] else [])
                                 ++ trim line |};
               result := result st |}
      | None => st
      end
  end.

(** Whether a [}] follows before any line terminator, which [.] does not
    match. *)
Fixpoint closes (s : jsstring) : bool :=
  match s with
  | [] => false
  | c :: s' =>
      if c =? RBRACE then true
      else if is_line_terminator c then false else closes s'
  end.

(** [s.replace(/\{.*?\}/g, '')], read left to right: a [{] opens a match
    when a [}] follows on the same line, and the lazy [.*?] ends the
    match at the first such [}]. *)
Fixpoint strip_from (inside : bool) (s : jsstring) : jsstring :=
  match s with
  | [] => []
  | c :: s' =>
      if inside then strip_from (negb (c =? RBRACE)) s'
      else if (c =? LBRACE) && closes s' then strip_from true s'
      else c :: strip_from false s'
  end.

Definition strip_tags (s : jsstring) : jsstring := strip_from false s.

(** The body of [lines.forEach] in the .ass branch. *)
Definition ass_line (result : list Cue) (line : jsstring) : list Cue :=
  if startsWith (str "Dialogue:") line then
    let parts := split COMMA line in
    if (10 <=? length parts)%nat then
      result ++ [ {| start := nth 1 parts [];
                     end_ := nth 2 parts [];
                     text := trim (strip_tags (join COMMA (drop 9 parts))) |} ]
    else result
  else result.

Definition lines_of (content : jsstring) : list jsstring :=
  split LF (replace_crlf content).

(** The .srt/.vtt branch: the loop over the lines, then the push of a
    cue still open at the end of the input. *)
Definition srt_branch (lines : list jsstring) : list Cue :=
  let st := fold_left srt_line lines {| current := None; result := [] |} in
  match current st with
  | Some c => result st ++ [c]
  | None => result st
  end.

Definition parseSubtitles (content extension : jsstring) : list Cue :=
  let lines := lines_of content in
  if eqb extension (str ".srt") || eqb extension (str ".vtt") then
    srt_branch lines
  else if eqb extension (str ".ass") then
    fold_left ass_line lines []
  else [].

End Server.

Import Server.

(** ** The reader component (ReaderView) *)

Module Reader.

(** The component's state: the [useState] cells the playback and
    translation logic reads and writes.  [data] is the fetched document's
    [parsed_json], [None] until it is loaded. *)
Record ReaderState := {
  data : option (list Cue);
  isPlaying : bool;
  currentTime : number;
  activeLineIndex : option nat;
  translations : gmap nat jsstring;
  isTranslating : bool;
  selectedWord : option (jsstring * nat)
}.

Definition setIsPlaying (b : bool) (st : ReaderState) : ReaderState :=
  {| data := data st; isPlaying := b; currentTime := currentTime st;
     activeLineIndex := activeLineIndex st; translations := translations st;
     isTranslating := isTranslating st; selectedWord := selectedWord st |}.

Definition setCurrentTime (t : number) (st : ReaderState) : ReaderState :=
  {| data := data st; isPlaying := isPlaying st; currentTime := t;
     activeLineIndex := activeLineIndex st; translations := translations st;
     isTranslating := isTranslating st; selectedWord := selectedWord st |}.

Definition setActiveLineIndex (i : option nat) (st : ReaderState)
  : ReaderState :=
  {| data := data st; isPlaying := isPlaying st; currentTime := currentTime st;
     activeLineIndex := i; translations := translations st;
     isTranslating := isTranslating st; selectedWord := selectedWord st |}.

Definition setTranslations (f : gmap nat jsstring -> gmap nat jsstring)
  (st : ReaderState) : ReaderState :=
  {| data := data st; isPlaying := isPlaying st; currentTime := currentTime st;
     activeLineIndex := activeLineIndex st; translations := f (translations st);
     isTranslating := isTranslating st; selectedWord := selectedWord st |}.

Definition setIsTranslating (b : bool) (st : ReaderState) : ReaderState :=
  {| data := data st; isPlaying := isPlaying st; currentTime := currentTime st;
     activeLineIndex := activeLineIndex st; translations := translations st;
     isTranslating := b; selectedWord := selectedWord st |}.

Definition setSelectedWord (w : option (jsstring * nat)) (st : ReaderState)
  : ReaderState :=
  {| data := data st; isPlaying := isPlaying st; currentTime := currentTime st;
     activeLineIndex := activeLineIndex st; translations := translations st;
     isTranslating := isTranslating st; selectedWord := w |}.

(** The state a freshly loaded document starts in. *)
Definition loaded (cues : list Cue) : ReaderState :=
  {| data := Some cues; isPlaying := false; currentTime := 0%float;
     activeLineIndex := None; translations := ∅;
     isTranslating := false; selectedWord := None |}.

(** [timeToSeconds]: [const [h, m, s] = timeStr.split(':')]. *)
Definition timeToSeconds (timeStr : jsstring) : number :=
  let parts := split COLON timeStr in
  let h := parts !! 0%nat in
  let m := parts !! 1%nat in
  let s := parts !! 2%nat in
  (parseFloat_elem h * 3600 + parseFloat_elem m * 60 + parseFloat_elem s)%float.

Definition totalDuration (st : ReaderState) : number :=
  match data st with
  | Some parsed_json =>
      match last parsed_json with
      | Some line => timeToSeconds (end_ line)
      | None => 0%float
      end
  | None => 0%float
  end.

(** The origin the timer effect records when playback starts at wall
    clock time [now] (milliseconds). *)
Definition timer_origin (now : number) (st : ReaderState) : number :=
  (now - currentTime st * 1000)%float.

(** One run of the [setInterval] callback at wall clock time [now]. *)
Definition tick (startTime now : number) (st : ReaderState) : ReaderState :=
  let elapsed := ((now - startTime) / 1000)%float in
  if ge elapsed (totalDuration st) then
    setCurrentTime (totalDuration st) (setIsPlaying false st)
  else setCurrentTime elapsed st.

(** The test of [findIndex]'s callback at time [t]. *)
Definition contains (t : number) (line : Cue) : bool :=
  ge t (timeToSeconds (start line)) && le t (timeToSeconds (end_ line)).

(** [Array.prototype.findIndex]; [None] is -1. *)
Fixpoint findIndex {A} (p : A -> bool) (l : list A) : option nat :=
  match l with
  | [] => None
  | x :: l' => if p x then Some 0%nat else S <$> findIndex p l'
  end.

(** The effect that follows every change of [currentTime]. *)
Definition resolve_active (st : ReaderState) : ReaderState :=
  match data st with
  | None => st
  | Some parsed_json =>
      match findIndex (contains (currentTime st)) parsed_json with
      | Some index =>
          if decide (Some index = activeLineIndex st) then st
          else setActiveLineIndex (Some index) st
      | None => st
      end
  end.

(** An outbound call to the translation service for the line [index]. *)
Inductive Request := GenerateContent (index : nat) (text : jsstring).

(** Truthiness of [translations[index]]. *)
Definition cached (st : ReaderState) (index : nat) : bool :=
  match translations st !! index with
  | Some t => truthy t
  | None => false
  end.

(** [handleTranslate] up to its [await]: the new state and the calls
    sent; [None] when reading [.text] of a line that does not exist
    throws. *)
Definition handleTranslate (index : nat) (st : ReaderState)
  : option (ReaderState * list Request) :=
  match data st with
  | None => Some (st, [])
  | Some parsed_json =>
      if cached st index || isTranslating st then Some (st, [])
      else
        line ← parsed_json !! index;
        if negb (truthy (trim (text line))) then Some (st, [])
        else Some (setIsTranslating true st,
                   [GenerateContent index (text line)])
  end.

(** [handleTranslate] after its [await]: the call for [index] settled,
    with [Some response_text] ([response.text], which may be undefined)
    or with [None] when it failed. *)
Definition translate_settled (index : nat)
  (outcome : option (option jsstring)) (st : ReaderState) : ReaderState :=
  match outcome with
  | Some response_text =>
      let translatedText := from_option trim [] response_text in
      setIsTranslating false
        (setTranslations (fun prev => <[index := translatedText]> prev) st)
  | None => setIsTranslating false st
  end.

(** [handleJumpToLine].  [handleTranslate] reads [data], [translations]
    and [isTranslating], which the three setters before it leave alone. *)
Definition handleJumpToLine (index : nat) (st : ReaderState)
  : option (ReaderState * list Request) :=
  match data st with
  | None => Some (st, [])
  | Some parsed_json =>
      line ← parsed_json !! index;
      let startTime := timeToSeconds (start line) in
      handleTranslate index
        (setSelectedWord None
           (setActiveLineIndex (Some index)
              (setCurrentTime (startTime + 0.01)%float st)))
  end.

(** The seek slider's [onChange], with the control's value. *)
Definition onSeekChange (value : jsstring) (st : ReaderState) : ReaderState :=
  setCurrentTime (parseFloat value) st.

Definition togglePlay (st : ReaderState) : ReaderState :=
  setIsPlaying (negb (isPlaying st)) st.

Definition resetPlayback (st : ReaderState) : ReaderState :=
  setActiveLineIndex None (setCurrentTime 0%float (setIsPlaying false st)).

End Reader.

Import Reader.

(** ** The upload route's file name (src/server.ts) *)

Module Upload.

Definition HYPHEN : N := 45.

(** [[a-z0-9]] *)
Definition is_slug_char (c : N) : bool :=
  ((97 <=? c) && (c <=? 122)) || is_digit c.

(** [s.replace(pat, "")] with a string pattern: the first occurrence of
    [pat] is removed (the empty pattern matches at the head). *)
Fixpoint remove_first (pat s : jsstring) : jsstring :=
  if startsWith pat s then drop (length pat) s
  else match s with
       | [] => []
       | c :: s' => c :: remove_first pat s'
       end.

(** [s.replace(/[^a-z0-9]/g, "-")] *)
Definition hyphenate (s : jsstring) : jsstring :=
  map (fun c => if is_slug_char c then c else HYPHEN) s.

(** [s.replace(/-+/g, "-")]; [after_hyphen] tells that the code unit
    before [s] was a hyphen of the run being replaced. *)
Fixpoint squeeze (after_hyphen : bool) (s : jsstring) : jsstring :=
  match s with
  | [] => []
  | c :: s' =>
      if c =? HYPHEN then
        if after_hyphen then squeeze true s' else HYPHEN :: squeeze true s'
      else c :: squeeze false s'
  end.

(** The [-$] alternative of [/^-|-$/g]: a hyphen that ends the string. *)
Fixpoint drop_final_hyphen (s : jsstring) : jsstring :=
  match s with
  | [] => []
  | c :: s' =>
      match s' with
      | [] => if c =? HYPHEN then [] else [c]
      | _ :: _ => c :: drop_final_hyphen s'
      end
  end.

(** The [^-] alternative of [/^-|-$/g]: a hyphen that begins the
    string. *)
Definition drop_leading_hyphen (s : jsstring) : jsstring :=
  match s with
  | c :: s' => if c =? HYPHEN then s' else s
  | [] => []
  end.

(** [s.replace(/^-|-$/g, "")]: a hyphen at the head is removed, then a
    hyphen at the end of what is left. *)
Definition strip_edge_hyphens (s : jsstring) : jsstring :=
  drop_final_hyphen (drop_leading_hyphen s).

Section Slug.

(** [String.prototype.toLowerCase], whose Unicode case table stays a
    parameter. *)
Variable toLowerCase : jsstring -> jsstring.

(** The stored file name of an upload called [originalName], where [ext]
    is its lower-cased extension ([path.extname]). *)
Definition filename (originalName ext : jsstring) : jsstring :=
  strip_edge_hyphens
    (squeeze false
       (hyphenate (toLowerCase (remove_first ext originalName)))).

End Slug.

End Upload.

Import Upload.

(** ** Words of a line and the word focus (ReaderView) *)

Module WordFocus.

(** [text.split(/\s+/)]; [in_sep] tells that the code unit before [s] was
    white space of the separator being matched. *)
Fixpoint split_ws (in_sep : bool) (s : jsstring) : list jsstring :=
  match s with
  | [] => [[]]
  | c :: s' =>
      if is_ws c then
        if in_sep then split_ws true s' else [] :: split_ws true s'
      else match split_ws false s' with
           | [] => [[c]]
           | w :: ws => (c :: w) :: ws
           end
  end.

(** The words a transcript line is rendered as. *)
Definition words_of (text : jsstring) : list jsstring := split_ws false text.

(** [[.,!?;:()]] *)
Definition is_word_punct (c : N) : bool :=
  (c =? 46) || (c =? 44) || (c =? 33) || (c =? 63) || (c =? 59)
  || (c =? 58) || (c =? 40) || (c =? 41).

(** [word.replace(/[.,!?;:()]/g, "").trim()] *)
Definition cleanWord (word : jsstring) : jsstring :=
  trim (filter (fun c => negb (is_word_punct c)) word).

(** The reader's state with the two cells of the word panel. *)
Record WordView := {
  reader : ReaderState;
  wordTranslation : option jsstring;
  isTranslatingWord : bool
}.

(** An outbound call to the translation service for a word. *)
Inductive WordRequest := DefineWord (word : jsstring).

(** [handleWordClick] up to its [await]. *)
Definition handleWordClick (word : jsstring) (lineIndex : nat) (v : WordView)
  : WordView * list WordRequest :=
  let cleaned := cleanWord word in
  if negb (truthy cleaned) then (v, [])
  else ({| reader := setSelectedWord (Some (cleaned, lineIndex)) (reader v);
           wordTranslation := None;
           isTranslatingWord := true |},
        [DefineWord cleaned]).

(** [handleWordClick] after its [await]: the call settled, with
    [Some response_text] or with [None] when it failed. *)
Definition word_settled (outcome : option (option jsstring)) (v : WordView)
  : WordView :=
  match outcome with
  | Some response_text =>
      {| reader := reader v;
         wordTranslation := Some (from_option trim [] response_text);
         isTranslatingWord := false |}
  | None =>
      {| reader := reader v; wordTranslation := wordTranslation v;
         isTranslatingWord := false |}
  end.

(** The test that underlines the word [word] of line [idx]. *)
Definition word_selected (st : ReaderState) (word : jsstring) (idx : nat)
  : bool :=
  match selectedWord st with
  | Some (t, lineIndex) => eqb t (cleanWord word) && (lineIndex =? idx)%nat
  | None => false
  end.

End WordFocus.

Import WordFocus.

(** ** Searching the transcript (ReaderView) *)

Module Search.

(** [s.includes(q)] *)
Fixpoint includes (s q : jsstring) : bool :=
  startsWith q s
  || match s with
     | [] => false
     | _ :: s' => includes s' q
     end.

Section Query.

Variable toLowerCase : jsstring -> jsstring.

(** [filteredLines] *)
Definition filteredLines (parsed_json : list Cue) (searchQuery : jsstring)
  : list Cue :=
  filter (fun line => includes (toLowerCase (text line))
                        (toLowerCase searchQuery) = true)
    parsed_json.

(** [isVisible], the test each rendered line passes. *)
Definition isVisible (searchQuery : jsstring) (line : Cue) : bool :=
  eqb searchQuery []
  || includes (toLowerCase (text line)) (toLowerCase searchQuery).

End Query.

End Search.

Import Search.

(** ** A reading session: the handlers as events *)

Module Session.

(** What can happen to an open document.  A tick carries the timer's
    origin and the wall clock, and may come at any time with any origin,
    which covers every run of the timer; a settlement carries the outcome
    of the line translation in flight.  Word clicks are left out: they
    write the word cells only. *)
Inductive Event :=
| Tick (startTime now : number)
| Seek (value : jsstring)
| Jump (index : nat)
| TogglePlay
| Reset
| Settled (outcome : option (option jsstring)).

(** The component with the line translations in flight ([pending], the
    indices their continuations hold) and the calls sent so far. *)
Record World := {
  ui : ReaderState;
  pending : list nat;
  sent : list Request
}.

Definition request_index (r : Request) : nat :=
  match r with GenerateContent index _ => index end.

(** The handler of an event.  A handler that throws leaves the state as
    it was; a settlement runs the continuation of the oldest call in
    flight. *)
Definition handle (e : Event) (w : World) : World :=
  match e with
  | Tick startTime now =>
      {| ui := tick startTime now (ui w); pending := pending w; sent := sent w |}
  | Seek value =>
      {| ui := onSeekChange value (ui w); pending := pending w; sent := sent w |}
  | Jump index =>
      match handleJumpToLine index (ui w) with
      | Some (st, reqs) =>
          {| ui := st; pending := pending w ++ map request_index reqs;
             sent := sent w ++ reqs |}
      | None => w
      end
  | TogglePlay =>
      {| ui := togglePlay (ui w); pending := pending w; sent := sent w |}
  | Reset =>
      {| ui := resetPlayback (ui w); pending := pending w; sent := sent w |}
  | Settled outcome =>
      match pending w with
      | index :: rest =>
          {| ui := translate_settled index outcome (ui w); pending := rest;
             sent := sent w |}
      | [] => w
      end
  end.

(** An event, then the resolver effect of the render that follows. *)
Definition step (w : World) (e : Event) : World :=
  let w' := handle e w in
  {| ui := resolve_active (ui w'); pending := pending w'; sent := sent w' |}.

(** The document [cues] once fetched and rendered. *)
Definition opened_doc (cues : list Cue) : World :=
  {| ui := resolve_active (loaded cues); pending := []; sent := [] |}.

Definition run (cues : list Cue) (events : list Event) : World :=
  fold_left step events (opened_doc cues).

End Session.

Import Session.

(** ** The specification's own notions *)

(** A timestamp in the canonical form HH:MM:SS.mmm. *)
Definition canonical (s : jsstring) : bool :=
  match s with
  | [h1; h2; c1; m1; m2; c2; s1; s2; p; f1; f2; f3] =>
      is_digit h1 && is_digit h2 && (c1 =? COLON)
      && is_digit m1 && is_digit m2 && (c2 =? COLON)
      && is_digit s1 && is_digit s2 && (p =? PERIOD)
      && is_digit f1 && is_digit f2 && is_digit f3
  | _ => false
  end.


(** What the specification says one line of an .ass file contributes. *)
Definition dialogue_cues (line : jsstring) : list Cue :=
  if startsWith (str "Dialogue:") line then
    let fields := split COMMA line in
    if (length fields <? 10)%nat then []
    else [ {| start := nth 1 fields [];
              end_ := nth 2 fields [];
              text := trim (strip_tags (join COMMA (drop 9 fields))) |} ]
  else [].

(** [i] is the first index of [cues] whose interval contains [t]. *)
Definition first_containing (cues : list Cue) (t : number) (i : nat) : Prop :=
  (exists c, cues !! i = Some c /\ contains t c = true)
  /\ forall j c, (j < i)%nat -> cues !! j = Some c -> contains t c = false.

(** The specification's example sequence: Hello over [0, 2], World over
    [2.5, 4]. *)
Definition hello_world : list Cue :=
  [ {| start := str "00:00:00.000"; end_ := str "00:00:02.000";
       text := str "Hello" |};
    {| start := str "00:00:02.500"; end_ := str "00:00:04.000";
       text := str "World" |} ].



(** A document whose only line reads Hi. *)
Definition one_line : list Cue :=
  [ {| start := str "00:00:00.000"; end_ := str "00:00:02.000";
       text := str "Hi" |} ].

(** A string with no white space at its head. *)
Definition no_lead (s : jsstring) : Prop :=
  match s with [] => True | c :: _ => is_ws c = false end.

(** A string that [trim] leaves alone. *)
Definition bare (s : jsstring) : Prop := no_lead s /\ trimEnd s = s.

(** The cue a timecode line with captures [g1] and [g2] opens. *)
Definition opened (g1 g2 : jsstring) : Cue :=
  {| start := replace_first COMMA PERIOD g1;
     end_ := replace_first COMMA PERIOD g2;
     text := [] |}.

(** The open cue [c] after the text line [line]. *)
Definition appended (c : Cue) (line : jsstring) : Cue :=
  {| start := start c; end_ := end_ c;
     text := text c ++ (if truthy (text c) then [SPACE] else []) ++ trim line |}.

(** ** Strings *)

Section Strings.

Implicit Types s t : jsstring.

Lemma eqb_nil s : eqb s [] = true <-> s = [].
Proof. destruct s; simpl; split; congruence. Qed.

Lemma eqb_nil_false s : eqb s [] = false <-> s <> [].
Proof. destruct s; simpl; split; congruence. Qed.

Lemma truthy_true s : truthy s = true <-> s <> [].
Proof. destruct s; simpl; split; congruence. Qed.

Lemma trimStart_no_lead s : no_lead (trimStart s).
Proof.
  induction s as [|c s IH]; simpl; [exact I|].
  destruct (is_ws c) eqn:E; [exact IH | exact E].
Qed.

Lemma no_lead_trimStart s : no_lead s -> trimStart s = s.
Proof. destruct s as [|c s]; simpl; [done|]. by intros ->. Qed.

Lemma trimEnd_idemp s : trimEnd (trimEnd s) = trimEnd s.
Proof.
  induction s as [|c s IH]; simpl; [done|].
  destruct (trimEnd s) as [|d t] eqn:E.
  - destruct (is_ws c) eqn:W; simpl; [done|]. by rewrite W.
  - simpl in *. by rewrite IH.
Qed.

Lemma trimEnd_no_lead s : no_lead s -> no_lead (trimEnd s).
Proof.
  destruct s as [|c s]; simpl; [done|]. intros W.
  destruct (trimEnd s); [by rewrite W | done].
Qed.

Lemma trim_bare s : bare (trim s).
Proof.
  split.
  - apply trimEnd_no_lead, trimStart_no_lead.
  - apply trimEnd_idemp.
Qed.

Lemma bare_trim s : bare s -> trim s = s.
Proof. intros [H1 H2]. unfold trim. by rewrite no_lead_trimStart. Qed.

Lemma trimEnd_app s t : trimEnd t <> [] -> trimEnd (s ++ t) = s ++ trimEnd t.
Proof.
  intros Ht. induction s as [|c s IH]; simpl; [done|].
  rewrite IH. destruct (s ++ trimEnd t) eqn:E; [|done].
  by apply app_eq_nil in E as [_ ?].
Qed.

Lemma bare_nil : bare [].
Proof. by split. Qed.

(** Two bare, non-empty strings joined by one space are bare. *)
Lemma bare_join2 s t :
  bare s -> s <> [] -> bare t -> t <> [] -> bare (s ++ SPACE :: t).
Proof.
  intros [Hs1 Hs2] Hs [Ht1 Ht2] Ht. split.
  - destruct s; [done|exact Hs1].
  - change (s ++ SPACE :: t) with (s ++ [SPACE] ++ t).
    rewrite app_assoc, trimEnd_app; rewrite Ht2; done.
Qed.




(** What a fixed-shape pattern matched: one code unit per class. *)
Lemma match_prefix_spec (p : list (N -> bool)) s g r :
  match_prefix p s = Some (g, r) ->
  Forall2 (fun cl c => cl c = true) p g /\ s = g ++ r.
Proof.
  revert s g r. induction p as [|cl p IH]; simpl; intros s g r H.
  - injection H as <- <-. by split.
  - destruct s as [|c s]; [done|].
    destruct (cl c) eqn:E; [|done].
    destruct (match_prefix p s) as [[m r']|] eqn:M; [|done].
    injection H as <- <-. apply IH in M as [M ->]. split; [|done].
    by constructor.
Qed.

End Strings.

(** ** The sequential-block parser *)

Lemma srt_line_open st line g1 g2 :
  timeMatch line = Some (g1, g2) ->
  srt_line st line = {| current := Some (opened g1 g2); result := result st |}.
Proof. unfold srt_line. by intros ->. Qed.

Lemma srt_line_blank st line c :
  timeMatch line = None -> current st = Some c -> trim line = [] ->
  srt_line st line = {| current := None; result := result st ++ [c] |}.
Proof. unfold srt_line. by intros -> -> ->. Qed.

Lemma srt_line_text st line c :
  timeMatch line = None -> current st = Some c -> trim line <> [] ->
  srt_line st line = {| current := Some (appended c line); result := result st |}.
Proof.
  unfold srt_line. intros -> -> H. apply eqb_nil_false in H. by rewrite H.
Qed.

Lemma srt_line_idle st line :
  timeMatch line = None -> current st = None -> srt_line st line = st.
Proof. unfold srt_line. by intros -> ->. Qed.

(** A property of cues that opening and appending establish and keep holds
    of every cue the parser emits. *)
Section BlockInvariant.

Variable P : Cue -> Prop.
Variable L : jsstring -> Prop.

Hypothesis P_opened : forall line g1 g2,
  L line -> timeMatch line = Some (g1, g2) -> P (opened g1 g2).
Hypothesis P_appended : forall c line,
  L line -> P c -> timeMatch line = None -> trim line <> [] ->
  P (appended c line).

Definition holds (st : Blocks) : Prop :=
  (forall c, current st = Some c -> P c) /\ Forall P (result st).

Lemma srt_line_holds st line : L line -> holds st -> holds (srt_line st line).
Proof.
  intros Hl [Hc Hr].
  destruct (timeMatch line) as [[g1 g2]|] eqn:M.
  - rewrite (srt_line_open _ _ _ _ M). split; simpl; [|done].
    intros c [= <-]. eauto.
  - destruct (current st) as [c|] eqn:C.
    + destruct (decide (trim line = [])) as [E|E].
      * rewrite (srt_line_blank _ _ _ M C E). split; simpl; [done|].
        apply Forall_app; auto.
      * rewrite (srt_line_text _ _ _ M C E). split; simpl; [|done].
        intros c' [= <-]. eauto.
    + rewrite (srt_line_idle _ _ M C). split; [|done]. by rewrite C.
Qed.

Lemma srt_fold_holds lines st :
  Forall L lines -> holds st -> holds (fold_left srt_line lines st).
Proof.
  intros Hl. revert st. induction Hl as [|line lines H _ IH]; simpl; [done|].
  intros st Hst. by apply IH, srt_line_holds.
Qed.

Lemma srt_branch_holds lines : Forall L lines -> Forall P (srt_branch lines).
Proof.
  intros Hl. unfold srt_branch.
  destruct (srt_fold_holds lines {| current := None; result := [] |} Hl)
    as [Hc Hr]; [by split|].
  destruct (current _) as [c|]; [|done].
  apply Forall_app; auto.
Qed.

End BlockInvariant.

(** *** Timestamps of emitted cues *)

Lemma is_digit_range c : is_digit c = true <-> 48 <= c <= 57.
Proof. unfold is_digit. rewrite andb_true_iff, !N.leb_le. done. Qed.

Lemma replace_first_skip a b c s :
  c <> a -> replace_first a b (c :: s) = c :: replace_first a b s.
Proof. intros H. simpl. by apply N.eqb_neq in H as ->. Qed.

(** Capture groups of [timeRegex], once the separator is a period, are
    canonical. *)
Lemma timestamp_canonical s g r :
  match_prefix timestamp_re s = Some (g, r) ->
  canonical (replace_first COMMA PERIOD g) = true.
Proof.
  intros H. apply match_prefix_spec in H as [H _]. unfold timestamp_re in H.
  repeat (apply Forall2_cons_inv_l in H as (? & ? & ? & H & ->)).
  apply Forall2_nil_inv_l in H as ->.
  repeat match goal with
         | H : is_digit _ = true |- _ => apply is_digit_range in H
         | H : (_ =? _) = true |- _ => apply N.eqb_eq in H; subst
         | H : _ || _ = true |- _ => apply orb_true_iff in H as [H|H]
         end.
  all: repeat (rewrite replace_first_skip by (unfold COMMA, COLON, PERIOD; lia)).
  all: cbn [replace_first N.eqb COMMA Pos.eqb canonical].
  all: rewrite ?andb_true_iff, ?is_digit_range, ?N.eqb_eq; repeat split.
  all: unfold COLON, PERIOD; lia.
Qed.

Lemma timeRegex_here_canonical s g1 g2 :
  timeRegex_here s = Some (g1, g2) ->
  canonical (replace_first COMMA PERIOD g1) = true
  /\ canonical (replace_first COMMA PERIOD g2) = true.
Proof.
  unfold timeRegex_here. intros H.
  destruct (match_prefix timestamp_re s) as [[a r1]|] eqn:M1;
    cbn [mbind option_bind] in H; [|done].
  destruct (match_prefix (lit " --> ") r1) as [[b r2]|];
    cbn [mbind option_bind] in H; [|done].
  destruct (match_prefix timestamp_re r2) as [[c r3]|] eqn:M2;
    cbn [mbind option_bind] in H; [|done].
  injection H as <- <-.
  split; eapply timestamp_canonical; eauto.
Qed.

Lemma timeMatch_canonical line g1 g2 :
  timeMatch line = Some (g1, g2) ->
  canonical (replace_first COMMA PERIOD g1) = true
  /\ canonical (replace_first COMMA PERIOD g2) = true.
Proof.
  induction line as [|c line IH]; cbn [timeMatch].
  - destruct (timeRegex_here []) as [[a b]|] eqn:M; [|done].
    intros [= <- <-]. by apply timeRegex_here_canonical in M.
  - destruct (timeRegex_here (c :: line)) as [[a b]|] eqn:M; [|exact IH].
    intros [= <- <-]. by apply timeRegex_here_canonical in M.
Qed.

(** C10. Every cue the .srt/.vtt parser emits has [start] and [end] in the
    canonical form HH:MM:SS.mmm: two digits each for hours, minutes and
    seconds, a period, three digits. *)
Theorem emitted_timestamps_canonical (content : jsstring) :
  Forall (fun c => canonical (start c) = true /\ canonical (end_ c) = true)
    (parseSubtitles content (str ".srt"))
  /\ Forall (fun c => canonical (start c) = true /\ canonical (end_ c) = true)
       (parseSubtitles content (str ".vtt")).
Proof.
  assert (H : Forall (fun c => canonical (start c) = true
                               /\ canonical (end_ c) = true)
                (srt_branch (lines_of content))).
  { apply srt_branch_holds with (L := fun _ => True).
    - intros line g1 g2 _ M. by apply timeMatch_canonical in M.
    - intros c line _ Hc _ _. exact Hc.
    - by apply Forall_forall. }
  split; exact H.
Qed.

(** *** A timecode line met while a cue is open *)

(** Text lines keep the cue open and emit nothing. *)
Lemma text_lines_keep_open body st c :
  Forall (fun l => timeMatch l = None /\ trim l <> []) body ->
  current st = Some c ->
  exists c', fold_left srt_line body st
             = {| current := Some c'; result := result st |}.
Proof.
  intros Hb. revert st c.
  induction Hb as [|l body [Hl1 Hl2] _ IH]; simpl; intros st c Hc.
  - exists c. destruct st; simpl in *; by subst.
  - rewrite (srt_line_text _ _ _ Hl1 Hc Hl2).
    by apply (IH {| current := Some (appended c l); result := result st |}
                 (appended c l)).
Qed.

(** C9. A timecode line met while a cue is open (no blank line since the
    line that opened it) discards that cue: after the block [tc1 :: body]
    a cue is open and nothing was emitted for it; the line [tc2] replaces
    it by the cue of its own captures, with empty text, and leaves
    [result] as it was; and the parser's output is the one of the input
    without the earlier block. *)
Theorem reopened_cue_is_discarded
  (pre : list jsstring) (tc1 : jsstring) (body : list jsstring)
  (tc2 : jsstring) (rest : list jsstring) (g h : jsstring * jsstring) :
  timeMatch tc1 = Some g ->
  Forall (fun l => timeMatch l = None /\ trim l <> []) body ->
  timeMatch tc2 = Some h ->
  (forall st, exists c,
      fold_left srt_line (tc1 :: body) st
      = {| current := Some c; result := result st |}
      /\ srt_line {| current := Some c; result := result st |} tc2
         = {| current := Some (opened h.1 h.2); result := result st |})
  /\ srt_branch (pre ++ tc1 :: body ++ tc2 :: rest)
     = srt_branch (pre ++ tc2 :: rest).
Proof.
  destruct g as [g1 g2], h as [h1 h2]. intros M1 Hb M2.
  assert (Hblock : forall st, exists c,
    fold_left srt_line (tc1 :: body) st
    = {| current := Some c; result := result st |}).
  { intros st. simpl. rewrite (srt_line_open _ _ _ _ M1).
    by apply (text_lines_keep_open body
                {| current := Some (opened g1 g2); result := result st |}
                (opened g1 g2)). }
  split.
  - intros st. destruct (Hblock st) as [c Hc]. exists c. split; [done|].
    by rewrite (srt_line_open _ _ _ _ M2).
  - unfold srt_branch.
    replace (pre ++ tc1 :: body ++ tc2 :: rest)
      with (pre ++ (tc1 :: body) ++ tc2 :: rest) by done.
    rewrite !fold_left_app.
    destruct (Hblock (fold_left srt_line pre {| current := None; result := [] |}))
      as [c ->].
    cbn [fold_left]. by rewrite !(srt_line_open _ _ _ _ M2).
Qed.

Lemma reopened_cue_is_discarded_witness :
  srt_branch ([str "1"] ++ str "00:00:01,000 --> 00:00:02,000"
              :: [str "lost"] ++ str "00:00:03,000 --> 00:00:04,000"
              :: [str "kept"])
  = srt_branch ([str "1"] ++ str "00:00:03,000 --> 00:00:04,000"
                :: [str "kept"]).
Proof.
  refine (proj2 (reopened_cue_is_discarded [str "1"]
                   (str "00:00:01,000 --> 00:00:02,000") [str "lost"]
                   (str "00:00:03,000 --> 00:00:04,000") [str "kept"]
                   (str "00:00:01,000", str "00:00:02,000")
                   (str "00:00:03,000", str "00:00:04,000") _ _ _)).
  - reflexivity.
  - repeat constructor. vm_compute. discriminate.
  - reflexivity.
Defined.

(** *** The text of emitted cues *)









(** *** Where the timestamps of emitted cues come from *)

Lemma eqb_eq (s t : jsstring) : eqb s t = true <-> s = t.
Proof.
  revert t. induction s as [|c s IH]; intros [|d t]; simpl; try done.
  rewrite andb_true_iff, N.eqb_eq, IH. split; [by intros [-> ->] | by intros [= -> ->]].
Qed.

(** The .ass branch pushes, line after line, what the specification says
    each line contributes. *)
Lemma ass_fold lines acc :
  fold_left ass_line lines acc = acc ++ flat_map dialogue_cues lines.
Proof.
  revert acc. induction lines as [|line lines IH]; intros acc; simpl.
  - by rewrite app_nil_r.
  - rewrite IH. unfold ass_line, dialogue_cues.
    destruct (startsWith (str "Dialogue:") line); [|done].
    destruct (Nat.leb_spec 10 (length (split COMMA line))) as [H|H].
    + apply Nat.ltb_ge in H as ->. by rewrite <- app_assoc.
    + by apply Nat.ltb_lt in H as ->.
Qed.

(** The cue's two timestamps stand on the timecode line [line]. *)
Definition from_timecode_line (line : jsstring) (c : Cue) : Prop :=
  exists g1 g2, timeMatch line = Some (g1, g2)
                /\ start c = replace_first COMMA PERIOD g1
                /\ end_ c = replace_first COMMA PERIOD g2.

(** The cue's two timestamps are fields 1 and 2 of the Dialogue line
    [line]. *)
Definition from_dialogue_line (line : jsstring) (c : Cue) : Prop :=
  startsWith (str "Dialogue:") line = true
  /\ start c = nth 1 (split COMMA line) []
  /\ end_ c = nth 2 (split COMMA line) [].

(** C3, counterexample. A block whose timecode line runs backwards is
    emitted as it is written: its cue starts at 5 s and ends at 1 s. *)
Lemma reversed_timecode_emitted :
  parseSubtitles (str "00:00:05,000 --> 00:00:01,000" ++ [LF] ++ str "hi")
    (str ".srt")
  = [ {| start := str "00:00:05.000"; end_ := str "00:00:01.000";
         text := str "hi" |} ]
  /\ timeToSeconds (str "00:00:05.000") = 5%float
  /\ timeToSeconds (str "00:00:01.000") = 1%float
  /\ ~ Forall (fun c => le (timeToSeconds (start c)) (timeToSeconds (end_ c))
                        = true)
         (parseSubtitles
            (str "00:00:05,000 --> 00:00:01,000" ++ [LF] ++ str "hi")
            (str ".srt")).
Proof.
  split; [reflexivity|]. split; [reflexivity|]. split; [reflexivity|].
  intros H. apply Forall_cons_1 in H as [H _]. vm_compute in H. discriminate.
Qed.

(** C3, as the code has it. The parser compares no timestamps: the [start]
    and [end] of every emitted cue are the two timestamps written on one
    line of the input, the captures of a timecode line with the separator
    normalized (.srt, .vtt) or fields 1 and 2 of a Dialogue line (.ass).
    So [start <= end] holds of a cue exactly when it holds on that line. *)
Theorem emitted_timestamps_from_source
  (content extension : jsstring) (c : Cue) :
  c ∈ parseSubtitles content extension ->
  exists line, line ∈ lines_of content
    /\ ((extension = str ".srt" \/ extension = str ".vtt")
        /\ from_timecode_line line c
        \/ extension = str ".ass" /\ from_dialogue_line line c).
Proof.
  unfold parseSubtitles.
  destruct (eqb extension (str ".srt") || eqb extension (str ".vtt")) eqn:E.
  - intros Hc.
    assert (Hext : extension = str ".srt" \/ extension = str ".vtt").
    { apply orb_true_iff in E. by rewrite !eqb_eq in E. }
    assert (H : Forall (fun c => exists line, line ∈ lines_of content
                                              /\ from_timecode_line line c)
                  (srt_branch (lines_of content))).
    { apply srt_branch_holds with (L := fun l => l ∈ lines_of content).
      - intros line g1 g2 Hl M. exists line. split; [done|].
        by exists g1, g2.
      - intros c' line' _ Hc' _ _. exact Hc'.
      - by apply Forall_forall. }
    rewrite Forall_forall in H. destruct (H c Hc) as (line & Hl & Hf).
    exists line. auto.
  - destruct (eqb extension (str ".ass")) eqn:A; [|by intros ?%elem_of_nil].
    apply eqb_eq in A. rewrite ass_fold, app_nil_l.
    intros Hc. apply list_elem_of_In, in_flat_map in Hc as (line & Hl & Hc).
    apply list_elem_of_In in Hl. exists line. split; [done|]. right.
    split; [done|]. unfold dialogue_cues in Hc.
    destruct (startsWith (str "Dialogue:") line) eqn:S; [|done].
    destruct (length (split COMMA line) <? 10)%nat; [done|].
    destruct Hc as [<-|[]]. by split.
Qed.

Lemma emitted_timestamps_from_source_witness :
  exists line,
    line ∈ lines_of (str "00:00:05,000 --> 00:00:01,000" ++ [LF] ++ str "hi")
    /\ ((str ".srt" = str ".srt" \/ str ".srt" = str ".vtt")
        /\ from_timecode_line line
             {| start := str "00:00:05.000"; end_ := str "00:00:01.000";
                text := str "hi" |}
        \/ str ".srt" = str ".ass"
           /\ from_dialogue_line line
                {| start := str "00:00:05.000"; end_ := str "00:00:01.000";
                   text := str "hi" |}).
Proof.
  apply (emitted_timestamps_from_source
           (str "00:00:05,000 --> 00:00:01,000" ++ [LF] ++ str "hi")
           (str ".srt")).
  vm_compute. apply list_elem_of_here.
Defined.

(** ** The tag-stripped-dialogue parser *)

(** Inside a span, the lazy match runs to the first closing brace. *)
Lemma strip_from_inside tag rest :
  Forall (fun c => c <> RBRACE) tag ->
  strip_from true (tag ++ RBRACE :: rest) = strip_from false rest.
Proof.
  induction 1 as [|c tag Hc _ IH]; simpl; [done|].
  by apply N.eqb_neq in Hc as ->.
Qed.

Lemma closes_span tag rest :
  Forall (fun c => c <> RBRACE /\ is_line_terminator c = false) tag ->
  closes (tag ++ RBRACE :: rest) = true.
Proof.
  induction 1 as [|c tag [Hc Hl] _ IH]; simpl; [done|].
  apply N.eqb_neq in Hc as ->. by rewrite Hl.
Qed.

(** Text without an opening brace is left as it is. *)
Lemma strip_tags_plain s :
  Forall (fun c => c <> LBRACE) s -> strip_tags s = s.
Proof.
  unfold strip_tags. induction 1 as [|c s Hc _ IH]; simpl; [done|].
  apply N.eqb_neq in Hc as ->. simpl. by rewrite IH.
Qed.

(** The first span [{tag}], from the first opening brace to the first
    closing brace after it, is removed, and stripping goes on behind it. *)
Lemma strip_tags_span pre tag rest :
  Forall (fun c => c <> LBRACE) pre ->
  Forall (fun c => c <> RBRACE /\ is_line_terminator c = false) tag ->
  strip_tags (pre ++ LBRACE :: tag ++ RBRACE :: rest) = pre ++ strip_tags rest.
Proof.
  unfold strip_tags. intros Hpre Htag.
  induction Hpre as [|c pre Hc _ IH]; simpl.
  - rewrite closes_span by done. simpl. apply strip_from_inside.
    eapply Forall_impl; [exact Htag|]. by intros ? [? _].
  - apply N.eqb_neq in Hc as ->. simpl. by rewrite IH.
Qed.



(** ** Numbers *)

Lemma SFcompare_antisym (x y : spec_float) :
  SFcompare y x = option_map CompOpp (SFcompare x y).
Proof.
  destruct x as [sx|sx| |sx mx ex], y as [sy|sy| |sy my ey]; simpl;
    try (destruct sx); try (destruct sy); try reflexivity.
  - rewrite (Z.compare_antisym ex ey).
    destruct (ex ?= ey)%Z; simpl; try reflexivity.
    f_equal. f_equal. rewrite Pos.compare_cont_antisym. reflexivity.
  - rewrite (Z.compare_antisym ex ey).
    destruct (ex ?= ey)%Z; simpl; try reflexivity.
    f_equal. rewrite Pos.compare_cont_antisym. reflexivity.
Qed.

(** [a >= b] false leaves [a > b] false: the comparisons agree, NaN
    included. *)
Lemma not_ge_not_gt (a b : number) : ge a b = false -> gt a b = false.
Proof.
  unfold ge, gt. rewrite leb_spec, ltb_spec. unfold SFleb, SFltb.
  by destruct (SFcompare (Prim2SF b) (Prim2SF a)) as [[]|].
Qed.

Lemma le_not_gt (a b : number) : le a b = true -> gt a b = false.
Proof.
  unfold le, gt. rewrite leb_spec, ltb_spec. unfold SFleb, SFltb.
  rewrite (SFcompare_antisym (Prim2SF a) (Prim2SF b)).
  by destruct (SFcompare (Prim2SF a) (Prim2SF b)) as [[]|].
Qed.


(** The conversions on sample inputs. *)
Example parseFloat_samples :
  parseFloat (str "05.000") = 5%float
  /\ parseFloat (str "0.01") = 0.01%float
  /\ parseFloat (str " -12.5e2px") = (-1250)%float
  /\ parseFloat (str "abc") = nan.
Proof. repeat split; reflexivity. Qed.

Example timeToSeconds_samples :
  timeToSeconds (str "01:02:03.500") = 3723.5%float
  /\ timeToSeconds (str "0:00:01.00") = 1%float
  /\ timeToSeconds (str "00:01") = nan.
Proof. repeat split; reflexivity. Qed.

(** ** The active-cue resolver *)

Section FindIndex.

Context {A : Type} (p : A -> bool).

Lemma findIndex_Some (l : list A) (i : nat) :
  findIndex p l = Some i ->
  (exists x, l !! i = Some x /\ p x = true)
  /\ forall j y, (j < i)%nat -> l !! j = Some y -> p y = false.
Proof.
  revert i. induction l as [|x l IH]; intros i; simpl; [done|].
  destruct (p x) eqn:E.
  - intros [= <-]. split; [by exists x | lia].
  - destruct (findIndex p l) as [k|]; [|done]. intros [= <-].
    destruct (IH k eq_refl) as [Hk Hlt]. split; [done|].
    intros [|j] y Hj; simpl; [by intros [= <-]|].
    apply Hlt. lia.
Qed.

Lemma findIndex_None (l : list A) :
  findIndex p l = None <-> forall x, x ∈ l -> p x = false.
Proof.
  induction l as [|x l IH]; simpl.
  - split; [|done]. by intros _ x ?%elem_of_nil.
  - destruct (p x) eqn:E.
    + split; [done|]. intros H. rewrite H in E; [done|]. apply list_elem_of_here.
    + destruct (findIndex p l) as [k|] eqn:F.
      * split; [done|]. intros H.
        assert (Some k = None); [|done].
        apply IH. intros y Hy. apply H. by apply list_elem_of_further.
      * split; [|done]. intros _ y [->|Hy]%elem_of_cons; [done|].
        by apply IH.
Qed.

End FindIndex.

Lemma first_containing_unique cues t i j :
  first_containing cues t i -> first_containing cues t j -> i = j.
Proof.
  intros [(c & Hc & Pc) Hi] [(d & Hd & Pd) Hj].
  destruct (Nat.lt_trichotomy i j) as [H|[H|H]]; [|done|].
  - rewrite (Hj i c H Hc) in Pc. done.
  - rewrite (Hi j d H Hd) in Pd. done.
Qed.

(** The resolver writes [activeLineIndex] and nothing else. *)
Lemma resolve_active_frame st :
  data (resolve_active st) = data st
  /\ isPlaying (resolve_active st) = isPlaying st
  /\ currentTime (resolve_active st) = currentTime st
  /\ translations (resolve_active st) = translations st
  /\ isTranslating (resolve_active st) = isTranslating st.
Proof.
  unfold resolve_active. destruct (data st) as [cues|] eqn:D; [|by rewrite D].
  destruct (findIndex _ cues) as [i|]; [|by rewrite D].
  destruct (decide _); simpl; by rewrite ?D.
Qed.

(** C1. With a document loaded, the resolver run after a change of the
    elapsed time sets [activeLineIndex] to the first index, in sequence
    order, of a cue whose inclusive interval contains the elapsed time when
    there is such a cue, and leaves [activeLineIndex] as it was when no
    cue contains the elapsed time. *)
Theorem resolver_first_match_or_unchanged
  (cues : list Cue) (st : ReaderState) :
  data st = Some cues ->
  ((exists c, c ∈ cues /\ contains (currentTime st) c = true) ->
   exists i, first_containing cues (currentTime st) i
             /\ activeLineIndex (resolve_active st) = Some i)
  /\ ((forall c, c ∈ cues -> contains (currentTime st) c = false) ->
      activeLineIndex (resolve_active st) = activeLineIndex st).
Proof.
  intros D. unfold resolve_active. rewrite D. split.
  - intros (c & Hc & Pc).
    destruct (findIndex (contains (currentTime st)) cues) as [i|] eqn:F.
    + exists i. split; [by apply findIndex_Some|].
      destruct (decide _) as [E|E]; [by rewrite E | done].
    + rewrite findIndex_None in F. by rewrite (F c Hc) in Pc.
  - intros H. apply findIndex_None in H. by rewrite H.
Qed.

Lemma resolver_first_match_or_unchanged_witness :
  (exists i,
     first_containing hello_world 1%float i
     /\ activeLineIndex (resolve_active (setCurrentTime 1%float (loaded hello_world)))
        = Some i)
  /\ activeLineIndex
       (resolve_active
          (setCurrentTime 2.2%float
             (setActiveLineIndex (Some 0%nat) (loaded hello_world))))
     = Some 0%nat.
Proof.
  split.
  - refine (proj1 (resolver_first_match_or_unchanged hello_world
                     (setCurrentTime 1%float (loaded hello_world)) eq_refl) _).
    eexists. split; [apply list_elem_of_here | reflexivity].
  - refine (proj2 (resolver_first_match_or_unchanged hello_world
                     (setCurrentTime 2.2%float
                        (setActiveLineIndex (Some 0%nat) (loaded hello_world)))
                     eq_refl) _).
    intros c Hc. repeat (apply elem_of_cons in Hc as [->|Hc]); try reflexivity.
    by apply elem_of_nil in Hc.
Defined.

(** Running the resolver again changes nothing. *)
Lemma resolve_active_idemp st :
  resolve_active (resolve_active st) = resolve_active st.
Proof.
  unfold resolve_active at 2 3.
  destruct (data st) as [cues|] eqn:D; [|unfold resolve_active; by rewrite D].
  destruct (findIndex _ cues) as [i|] eqn:F;
    [|unfold resolve_active; by rewrite D, F].
  destruct (decide _) as [E|E]; unfold resolve_active; cbn; rewrite D, F.
  - by rewrite decide_True.
  - by rewrite decide_True.
Qed.

(** [activeLineIndex] is unset on load, and reset clears it along with
    the clock. *)
Lemma reset_clears st :
  isPlaying (resetPlayback st) = false
  /\ currentTime (resetPlayback st) = 0%float
  /\ activeLineIndex (resetPlayback st) = None.
Proof. done. Qed.

(** A cue that ends at [s] does not contain [s + 0.01] when the offset
    is not absorbed by the rounding of the sum. *)
Lemma previous_cue_excluded (prev : Cue) (s : number) :
  timeToSeconds (end_ prev) = s ->
  gt (s + 0.01)%float s = true ->
  contains (s + 0.01)%float prev = false.
Proof.
  intros <- H. unfold contains. apply andb_false_iff. right.
  destruct (le _ _) eqn:E; [|done].
  apply le_not_gt in E. by rewrite E in H.
Qed.

(** ** The playback timer *)

Lemma tick_frame startTime now st :
  data (tick startTime now st) = data st
  /\ totalDuration (tick startTime now st) = totalDuration st.
Proof. unfold tick. by destruct (ge _ _). Qed.

(** C6. A tick whose recomputed elapsed time reaches or exceeds
    [totalDuration] stops the clock and sets the elapsed time to
    [totalDuration] itself; and no tick leaves the clock playing with an
    elapsed time beyond [totalDuration]. *)
Theorem tick_never_overshoots (startTime now : number) (st : ReaderState) :
  (ge ((now - startTime) / 1000)%float (totalDuration st) = true ->
   isPlaying (tick startTime now st) = false
   /\ currentTime (tick startTime now st) = totalDuration st)
  /\ isPlaying (tick startTime now st)
     && gt (currentTime (tick startTime now st))
          (totalDuration (tick startTime now st)) = false.
Proof.
  split.
  - unfold tick. by intros ->.
  - destruct (tick_frame startTime now st) as [_ ->]. unfold tick.
    destruct (ge _ _) eqn:E; simpl; [done|].
    rewrite (not_ge_not_gt _ _ E). apply andb_false_r.
Qed.

Lemma tick_never_overshoots_witness :
  isPlaying (tick 0%float 4050%float (setIsPlaying true (loaded hello_world)))
  = false
  /\ currentTime
       (tick 0%float 4050%float (setIsPlaying true (loaded hello_world)))
     = 4%float.
Proof.
  exact (proj1 (tick_never_overshoots 0%float 4050%float
                  (setIsPlaying true (loaded hello_world))) eq_refl).
Defined.

(** ** Seeking *)

(** [handleTranslate] writes [isTranslating] and nothing else. *)
Lemma handleTranslate_frame index st st' reqs :
  handleTranslate index st = Some (st', reqs) ->
  data st' = data st /\ isPlaying st' = isPlaying st
  /\ currentTime st' = currentTime st
  /\ activeLineIndex st' = activeLineIndex st
  /\ translations st' = translations st.
Proof.
  unfold handleTranslate.
  destruct (data st) as [cues|] eqn:D; [|by intros [= <- _]].
  destruct (_ || _); [by intros [= <- _]|].
  destruct (cues !! index) as [line|]; cbn [mbind option_bind]; [|done].
  destruct (negb _); by intros [= <- _].
Qed.




(** The specification's example: seeking to cue 1 of its sequence sets the
    elapsed time to 2.5 + 0.01 and the resolver reports index 1. *)
Example jump_to_world :
  exists st' reqs,
    handleJumpToLine 1 (loaded hello_world) = Some (st', reqs)
    /\ currentTime st' = (2.5 + 0.01)%float
    /\ activeLineIndex (resolve_active st') = Some 1%nat.
Proof. eexists _, _. split; [reflexivity|]. split; reflexivity. Qed.




(** While the clock is playing the timer keeps its own origin: the tick
    that follows a seek recomputes the elapsed time from it. *)
Lemma tick_after_seek startTime now value st :
  currentTime (tick startTime now (onSeekChange value st))
  = currentTime (tick startTime now st).
Proof.
  unfold tick. change (totalDuration (onSeekChange value st))
    with (totalDuration st).
  by destruct (ge _ _).
Qed.

(** ** Line translations *)




(** ** More on the sequential-block parser *)

(** X1. Lines before the first timecode line (sequence numbers, a WEBVTT
    header, blank lines) leave no trace: the parser's output is the one
    of the input without them. *)
Theorem lines_before_first_timecode_ignored (pre rest : list jsstring) :
  Forall (fun l => timeMatch l = None) pre ->
  srt_branch (pre ++ rest) = srt_branch rest.
Proof.
  intros Hpre. unfold srt_branch. rewrite fold_left_app.
  replace (fold_left srt_line pre {| current := None; result := [] |})
    with {| current := None; result := [] |}; [done|].
  induction Hpre as [|l pre Hl _ IH]; simpl; [done|].
  by rewrite (srt_line_idle {| current := None; result := [] |} l Hl eq_refl).
Qed.

Lemma lines_before_first_timecode_ignored_witness :
  srt_branch ([str "WEBVTT"; []; str "1"]
              ++ [str "00:00:01.000 --> 00:00:02.000"; str "Hi"])
  = srt_branch [str "00:00:01.000 --> 00:00:02.000"; str "Hi"].
Proof.
  apply (lines_before_first_timecode_ignored [str "WEBVTT"; []; str "1"]).
  repeat constructor.
Defined.

(** The two normalized timestamps a line carries, when it is a timecode
    line. *)
Definition timecode_of (line : jsstring) : option (jsstring * jsstring) :=
  '(g1, g2) ← timeMatch line;
  Some (replace_first COMMA PERIOD g1, replace_first COMMA PERIOD g2).

Definition timestamps (c : Cue) : jsstring * jsstring := (start c, end_ c).

Lemma srt_fold_in_order lines st tcs :
  map timestamps (result st ++ option_list (current st)) `sublist_of` tcs ->
  map timestamps
    (result (fold_left srt_line lines st)
     ++ option_list (current (fold_left srt_line lines st)))
  `sublist_of` tcs ++ omap timecode_of lines.
Proof.
  revert st tcs. induction lines as [|line lines IH]; intros st tcs H.
  { by rewrite app_nil_r. }
  cbn [fold_left omap list_omap]. unfold timecode_of at 1.
  destruct (timeMatch line) as [[g1 g2]|] eqn:M; cbn [mbind option_bind].
  - rewrite (srt_line_open _ _ _ _ M).
    replace (tcs ++ (replace_first COMMA PERIOD g1,
                     replace_first COMMA PERIOD g2) :: omap timecode_of lines)
      with ((tcs ++ [timestamps (opened g1 g2)]) ++ omap timecode_of lines)
      by by rewrite <- app_assoc.
    apply IH. cbn [result current option_list]. rewrite map_app.
    apply sublist_app; [|done].
    etrans; [|exact H]. rewrite map_app. by apply sublist_inserts_r.
  - destruct (current st) as [c|] eqn:C.
    + destruct (decide (trim line = [])) as [E|E].
      * rewrite (srt_line_blank _ _ _ M C E). apply IH.
        cbn [result current option_list]. by rewrite app_nil_r.
      * rewrite (srt_line_text _ _ _ M C E). apply IH.
        cbn [result current option_list]. by rewrite !map_app in *.
    + rewrite (srt_line_idle _ _ M C). apply IH. by rewrite C.
Qed.

(** X2. The .srt/.vtt parser neither reorders nor invents cues: the
    timestamp pairs of the emitted cues, in output order, are a
    subsequence of the timestamp pairs of the input's timecode lines, in
    input order; so there are never more cues than timecode lines. *)
Theorem cues_follow_source_order (lines : list jsstring) :
  map timestamps (srt_branch lines) `sublist_of` omap timecode_of lines
  /\ (length (srt_branch lines) <= length (omap timecode_of lines))%nat.
Proof.
  assert (H : map timestamps (srt_branch lines)
              `sublist_of` omap timecode_of lines).
  { pose proof (srt_fold_in_order lines {| current := None; result := [] |} [])
      as H.
    cbn [result current option_list app map] in H. specialize (H (sublist_nil)).
    unfold srt_branch.
    destruct (current (fold_left srt_line lines _)) as [c|];
      cbn [option_list] in H; [done|].
    by rewrite app_nil_r in H. }
  split; [done|]. apply sublist_length in H. by rewrite length_map in H.
Qed.

(** ** More on the tag-stripped-dialogue parser *)

Lemma split_cons_inv sep s :
  exists w ws, split sep s = w :: ws.
Proof.
  destruct s as [|c s]; simpl; [by eexists _, _|].
  destruct (c =? sep); [by eexists _, _|].
  destruct (split sep s); by eexists _, _.
Qed.

(** Joining what [split] gave rebuilds the string. *)
Lemma join_split sep s : join sep (split sep s) = s.
Proof.
  induction s as [|c s IH]; simpl; [done|].
  destruct (split_cons_inv sep s) as (w & ws & E). rewrite E in *.
  destruct (N.eqb_spec c sep) as [->|N].
  - change (join sep ([] :: w :: ws)) with (sep :: join sep (w :: ws)).
    by rewrite IH.
  - rewrite <- IH. by destruct ws.
Qed.

(** No field holds the separator. *)
Lemma split_fields sep s : Forall (fun f => sep ∉ f) (split sep s).
Proof.
  induction s as [|c s IH]; simpl.
  - constructor; [apply not_elem_of_nil | constructor].
  - destruct (N.eqb_spec c sep) as [->|N].
    + constructor; [apply not_elem_of_nil | done].
    + destruct (split sep s) as [|w ws].
      * constructor; [|constructor].
        apply not_elem_of_cons. split; [congruence | apply not_elem_of_nil].
      * apply Forall_cons in IH as [Hw Hws]. constructor; [|done].
        apply not_elem_of_cons. split; [congruence | done].
Qed.

Lemma join_app sep (l k : list jsstring) :
  l <> [] -> k <> [] -> join sep (l ++ k) = join sep l ++ sep :: join sep k.
Proof.
  intros Hl Hk. induction l as [|a l IH]; [done|].
  destruct l as [|b l].
  - destruct k; [done|]. done.
  - cbn [app join] in *. rewrite IH by done. by rewrite <- app_assoc.
Qed.

(** X3. Commas in the dialogue text survive the split on commas: for a
    line of at least 10 fields, the text handed to the tag stripper is
    what stands on the line behind its ninth comma, the nine fields
    before it holding no comma. *)
Theorem dialogue_text_keeps_commas (line : jsstring) :
  (10 <= length (split COMMA line))%nat ->
  line = join COMMA (take 9 (split COMMA line))
         ++ COMMA :: join COMMA (drop 9 (split COMMA line))
  /\ length (take 9 (split COMMA line)) = 9%nat
  /\ Forall (fun f => COMMA ∉ f) (take 9 (split COMMA line)).
Proof.
  intros H.
  assert (Ht : length (take 9 (split COMMA line)) = 9%nat)
    by (rewrite length_take; lia).
  assert (Hd : length (drop 9 (split COMMA line)) <> 0%nat)
    by (rewrite length_drop; lia).
  split; [|split; [done|]].
  - rewrite <- join_app.
    + by rewrite take_drop, join_split.
    + intros E. by rewrite E in Ht.
    + intros E. by rewrite E in Hd.
  - apply Forall_take, split_fields.
Qed.

Lemma dialogue_text_keeps_commas_witness :
  str "Dialogue: 0,0:00:01.00,0:00:03.00,Default,,0,0,0,,Well, yes, no"
  = join COMMA
      (take 9 (split COMMA
         (str "Dialogue: 0,0:00:01.00,0:00:03.00,Default,,0,0,0,,Well, yes, no")))
    ++ COMMA :: str "Well, yes, no".
Proof.
  exact (proj1 (dialogue_text_keeps_commas
                  (str "Dialogue: 0,0:00:01.00,0:00:03.00,Default,,0,0,0,,Well, yes, no")
                  ltac:(vm_compute; lia))).
Defined.

Lemma closes_strip_from s :
  closes s = false -> closes (strip_from false s) = false.
Proof.
  induction s as [|c s IH]; simpl; [done|].
  destruct (N.eqb_spec c RBRACE) as [->|N]; [done|].
  destruct (is_line_terminator c) eqn:L.
  - intros _. destruct ((c =? LBRACE) && closes s) eqn:B.
    + apply andb_true_iff in B as [B _]. apply N.eqb_eq in B as ->. done.
    + simpl. apply N.eqb_neq in N as ->. by rewrite L.
  - intros H. rewrite H, andb_false_r. simpl.
    apply N.eqb_neq in N as ->. rewrite L. by apply IH.
Qed.

Lemma strip_from_idemp s :
  strip_from false (strip_from false s) = strip_from false s
  /\ strip_from false (strip_from true s) = strip_from true s.
Proof.
  induction s as [|c s [IH1 IH2]]; simpl; [done|]. split.
  - destruct ((c =? LBRACE) && closes s) eqn:B; [done|].
    simpl. rewrite IH1.
    destruct (N.eqb_spec c LBRACE) as [->|N]; simpl; [|done].
    simpl in B. by rewrite (closes_strip_from _ B).
  - by destruct (negb (c =? RBRACE)).
Qed.

(** X4. One pass removes every tag: stripping the override tags of an
    already stripped text changes nothing. *)
Theorem strip_tags_idemp (s : jsstring) :
  strip_tags (strip_tags s) = strip_tags s.
Proof. apply strip_from_idemp. Qed.

(** ** The stored file name *)

(** No two hyphens side by side. *)
Fixpoint spaced (s : jsstring) : Prop :=
  match s with
  | [] => True
  | c :: s' => (c = HYPHEN -> head s' <> Some HYPHEN) /\ spaced s'
  end.

(** Letters, digits and hyphens only. *)
Definition slug_chars (s : jsstring) : Prop :=
  Forall (fun c => is_slug_char c = true \/ c = HYPHEN) s.

Lemma hyphenate_slug_chars s : slug_chars (hyphenate s).
Proof.
  induction s as [|c s IH]; [constructor|]. constructor; [|exact IH].
  destruct (is_slug_char c) eqn:E; auto.
Qed.

Lemma squeeze_slug_chars b s : slug_chars s -> slug_chars (squeeze b s).
Proof.
  intros H. revert b. induction H as [|c s Hc _ IH]; intros b; simpl.
  { constructor. }
  destruct (c =? HYPHEN); [destruct b|].
  - apply IH.
  - constructor; [by right | apply IH].
  - constructor; [exact Hc | apply IH].
Qed.

Lemma squeeze_spaced b s :
  spaced (squeeze b s)
  /\ (b = true -> head (squeeze b s) <> Some HYPHEN).
Proof.
  revert b. induction s as [|c s IH]; intros b; simpl; [done|].
  destruct (N.eqb_spec c HYPHEN) as [->|N].
  - destruct b; [apply IH|]. split; [|done]. split; [|apply IH].
    intros _. by apply IH.
  - split; [|simpl; congruence]. split; [done | apply IH].
Qed.

Lemma drop_final_slug_chars s : slug_chars s -> slug_chars (drop_final_hyphen s).
Proof.
  induction 1 as [|c s Hc Hs IH]; simpl; [constructor|].
  destruct s.
  - destruct (c =? HYPHEN); [constructor | by constructor].
  - by constructor.
Qed.

Lemma drop_final_head s d :
  head s = Some d -> d <> HYPHEN -> head (drop_final_hyphen s) = Some d.
Proof.
  destruct s as [|c s]; simpl; [done|]. intros [= ->] N.
  destruct s; [|done]. by apply N.eqb_neq in N as ->.
Qed.

Lemma drop_final_spaced s : spaced s -> spaced (drop_final_hyphen s).
Proof.
  induction s as [|c s IH]; [done|]. intros [Hc Hs].
  destruct s as [|d s]; [simpl; by destruct (c =? HYPHEN)|].
  change (drop_final_hyphen (c :: d :: s))
    with (c :: drop_final_hyphen (d :: s)).
  split; [|by apply IH]. intros E.
  assert (d <> HYPHEN) by (intros ->; by apply Hc).
  rewrite (drop_final_head (d :: s) d); [congruence | done | done].
Qed.

Lemma drop_final_last s : spaced s -> last (drop_final_hyphen s) <> Some HYPHEN.
Proof.
  induction s as [|c s IH]; [done|]. intros [Hc Hs].
  destruct s as [|d s].
  { simpl. destruct (N.eqb_spec c HYPHEN); simpl; congruence. }
  specialize (IH Hs).
  change (drop_final_hyphen (c :: d :: s))
    with (c :: drop_final_hyphen (d :: s)).
  assert (Hd : d <> HYPHEN -> head (drop_final_hyphen (d :: s)) = Some d)
    by (by apply drop_final_head).
  destruct (drop_final_hyphen (d :: s)) as [|e t]; [|exact IH].
  simpl. intros [= ->]. by specialize (Hd ltac:(intros ->; by apply Hc)).
Qed.

Lemma strip_edge_shape s :
  slug_chars s -> spaced s ->
  slug_chars (strip_edge_hyphens s) /\ spaced (strip_edge_hyphens s)
  /\ head (strip_edge_hyphens s) <> Some HYPHEN
  /\ last (strip_edge_hyphens s) <> Some HYPHEN.
Proof.
  intros Hc Hs. unfold strip_edge_hyphens.
  set (t := drop_leading_hyphen s).
  assert (Ht : slug_chars t /\ spaced t /\ head t <> Some HYPHEN).
  { subst t. unfold drop_leading_hyphen. destruct s as [|c s]; [done|].
    destruct (N.eqb_spec c HYPHEN) as [->|N].
    - apply Forall_cons in Hc as [_ Hc]. destruct Hs as [Hh Hs]. auto.
    - split; [done|]. split; [done|]. simpl. by intros [= ?]. }
  destruct Ht as (Hc' & Hs' & Hh').
  split; [by apply drop_final_slug_chars|].
  split; [by apply drop_final_spaced|].
  split; [|by apply drop_final_last].
  destruct t as [|d t]; [done|].
  assert (d <> HYPHEN) by (simpl in Hh'; congruence).
  rewrite (drop_final_head (d :: t) d); simpl; congruence.
Qed.

Lemma spaced_lookup s i :
  spaced s -> s !! i = Some HYPHEN -> s !! S i <> Some HYPHEN.
Proof.
  revert i. induction s as [|c s IH]; intros i; [done|]. intros [Hc Hs].
  destruct i as [|i]; simpl.
  - intros [= ->]. destruct s; [done|]. by apply Hc.
  - by apply IH.
Qed.

(** X5. Whatever the upload is called, its stored file name is made of
    the letters a-z, digits and hyphens only, neither begins nor ends
    with a hyphen, and has no two hyphens in a row. *)
Theorem filename_is_kebab
  (toLowerCase : jsstring -> jsstring) (originalName ext : jsstring) :
  Forall (fun c => is_slug_char c = true \/ c = HYPHEN)
    (filename toLowerCase originalName ext)
  /\ head (filename toLowerCase originalName ext) <> Some HYPHEN
  /\ last (filename toLowerCase originalName ext) <> Some HYPHEN
  /\ forall i, filename toLowerCase originalName ext !! i = Some HYPHEN ->
               filename toLowerCase originalName ext !! S i <> Some HYPHEN.
Proof.
  unfold filename.
  destruct (strip_edge_shape
              (squeeze false
                 (hyphenate (toLowerCase (remove_first ext originalName)))))
    as (H1 & H2 & H3 & H4).
  - apply squeeze_slug_chars, hyphenate_slug_chars.
  - apply squeeze_spaced.
  - repeat split; try done. intros i. by apply spaced_lookup.
Qed.


(** [filter] with a boolean test, one code unit at a time. *)
Lemma filter_bool_cons (p : N -> bool) (c : N) (s : jsstring) :
  filter p (c :: s) = if p c then c :: filter p s else filter p s.
Proof.
  change (filter p (c :: s))
    with (if decide (p c) then c :: filter p s else filter p s).
  destruct (p c); done.
Qed.






(** ** Words of a line *)

(** The text of every cue of the sequential-block parser is bare. *)
Lemma srt_text_bare lines : Forall (fun c => bare (text c)) (srt_branch lines).
Proof.
  apply srt_branch_holds with (L := fun _ => True).
  - intros. apply bare_nil.
  - intros c line _ Hc _ Hne. cbn [appended text].
    destruct (text c) as [|a t] eqn:E; [apply trim_bare|].
    cbn [truthy]. apply (bare_join2 (a :: t) (trim line)); try done.
    apply trim_bare.
  - by apply Forall_forall.
Qed.

(** A white space at the head opens with an empty word; otherwise the
    two modes of the scan agree. *)
Lemma split_ws_modes s :
  split_ws false s
  = match s with
    | c :: _ => if is_ws c then [] :: split_ws true s else split_ws true s
    | [] => split_ws true s
    end.
Proof. destruct s as [|c s]; [done|]. simpl. by destruct (is_ws c). Qed.

Lemma split_ws_clean b s :
  Forall (fun w => Forall (fun c => is_ws c = false) w) (split_ws b s).
Proof.
  revert b. induction s as [|c s IH]; intros b; simpl.
  { by repeat constructor. }
  destruct (is_ws c) eqn:W.
  - destruct b; [apply IH|]. constructor; [constructor | apply IH].
  - specialize (IH false). destruct (split_ws false s) as [|w ws].
    + by repeat constructor.
    + apply Forall_cons in IH as [Hw Hws]. constructor; [|done].
      by constructor.
Qed.

(** A non-empty string that [trimEnd] leaves alone: its last code unit
    is no white space. *)
Lemma trimEnd_fixed_cons c s :
  trimEnd (c :: s) = c :: s ->
  s = [] /\ is_ws c = false \/ s <> [] /\ trimEnd s = s.
Proof.
  simpl. destruct (trimEnd s) as [|d t] eqn:E.
  - destruct (is_ws c); [done|]. intros [= <-]. by left.
  - intros [= <-]. by right.
Qed.

Lemma split_ws_words s :
  s <> [] -> trimEnd s = s -> Forall (fun w => w <> []) (split_ws true s).
Proof.
  induction s as [|c s IH]; [done|]. intros _ H.
  apply trimEnd_fixed_cons in H as [[-> W]|[Hne H]].
  - simpl. rewrite W. by repeat constructor.
  - specialize (IH Hne H). simpl. destruct (is_ws c); [done|].
    rewrite split_ws_modes. destruct s as [|d s]; [done|].
    destruct (is_ws d).
    + by constructor.
    + destruct (split_ws true (d :: s)) as [|w ws]; [by repeat constructor|].
      apply Forall_cons in IH as [_ Hws]. by constructor.
Qed.

(** X7. The words a line is rendered as hold no white space; and when the
    line comes from the .srt/.vtt parser and its text is not empty, none
    of its words is empty. *)
Theorem rendered_words_are_words (lines : list jsstring) (c : Cue) :
  c ∈ srt_branch lines ->
  Forall (fun w => Forall (fun ch => is_ws ch = false) w) (words_of (text c))
  /\ (text c <> [] -> Forall (fun w => w <> []) (words_of (text c))).
Proof.
  intros Hc. split; [apply split_ws_clean|]. intros Hne.
  pose proof (srt_text_bare lines) as H. rewrite Forall_forall in H.
  destruct (H c Hc) as [Hl He]. unfold words_of. rewrite split_ws_modes.
  destruct (text c) as [|a t]; [done|]. simpl in Hl. rewrite Hl.
  by apply split_ws_words.
Qed.

Lemma rendered_words_are_words_witness :
  Forall (fun w => w <> []) (words_of (str "Hello,  world")).
Proof.
  refine (proj2 (rendered_words_are_words
                   [str "00:00:01,000 --> 00:00:02,000"; str " Hello,  world "]
                   {| start := str "00:00:01.000"; end_ := str "00:00:02.000";
                      text := str "Hello,  world" |} _) _).
  - vm_compute. apply list_elem_of_here.
  - discriminate.
Defined.

(** ** The word focus *)

Lemma trimStart_Forall (P : N -> Prop) s : Forall P s -> Forall P (trimStart s).
Proof.
  induction 1 as [|c s Hc Hs IH]; simpl; [constructor|].
  destruct (is_ws c); [done | by constructor].
Qed.

Lemma trimEnd_Forall (P : N -> Prop) s : Forall P s -> Forall P (trimEnd s).
Proof.
  induction 1 as [|c s Hc Hs IH]; simpl; [constructor|].
  destruct (trimEnd s); [|by constructor].
  destruct (is_ws c); by repeat constructor.
Qed.

Lemma filter_not_punct (s : jsstring) :
  Forall (fun c => is_word_punct c = false) s ->
  filter (fun c => negb (is_word_punct c)) s = s.
Proof.
  induction 1 as [|c s Hc _ IH]; [done|].
  rewrite filter_bool_cons. cbv beta. rewrite Hc. cbn [negb]. by f_equal.
Qed.

Lemma filter_is_not_punct (s : jsstring) :
  Forall (fun c => is_word_punct c = false)
    (filter (fun c => negb (is_word_punct c)) s).
Proof.
  induction s as [|c s IH]; [constructor|]. rewrite filter_bool_cons.
  destruct (is_word_punct c) eqn:E; simpl; [done | by constructor].
Qed.

Lemma cleanWord_not_punct word :
  Forall (fun c => is_word_punct c = false) (cleanWord word).
Proof. apply trimEnd_Forall, trimStart_Forall, filter_is_not_punct. Qed.

Lemma cleanWord_fixed word : cleanWord (cleanWord word) = cleanWord word.
Proof.
  change (cleanWord (cleanWord word))
    with (trim (filter (fun c => negb (is_word_punct c)) (cleanWord word))).
  rewrite (filter_not_punct _ (cleanWord_not_punct word)).
  apply bare_trim, trim_bare.
Qed.

(** X8. The word looked up holds none of the punctuation marks
    [.,!?;:()] and no surrounding white space, and cleaning it again
    gives the same word. *)
Theorem cleanWord_is_clean (word : jsstring) :
  Forall (fun c => is_word_punct c = false) (cleanWord word)
  /\ trim (cleanWord word) = cleanWord word
  /\ cleanWord (cleanWord word) = cleanWord word.
Proof.
  split; [apply cleanWord_not_punct|].
  split; [apply bare_trim, trim_bare | apply cleanWord_fixed].
Qed.

(** X9. After a click on a word that is more than punctuation, the words
    underlined are exactly those of the clicked line that clean to the
    same word; a click on a word that cleans to nothing changes nothing
    and sends nothing. *)
Theorem clicked_word_is_selected
  (word : jsstring) (lineIndex : nat) (v : WordView) :
  (cleanWord word <> [] ->
   forall word' idx,
     word_selected (reader (handleWordClick word lineIndex v).1) word' idx = true
     <-> cleanWord word' = cleanWord word /\ idx = lineIndex)
  /\ (cleanWord word = [] -> handleWordClick word lineIndex v = (v, [])).
Proof.
  unfold handleWordClick. split.
  - intros Hne. apply truthy_true in Hne as Ht. rewrite Ht.
    intros word' idx. cbn [negb fst reader]. unfold word_selected.
    cbn [selectedWord setSelectedWord].
    rewrite andb_true_iff, eqb_eq, Nat.eqb_eq. split; intros [? ?]; by subst.
  - by intros ->.
Qed.

Lemma clicked_word_is_selected_witness :
  word_selected
    (reader (handleWordClick (str "Hello,") 0
               {| reader := loaded hello_world; wordTranslation := None;
                  isTranslatingWord := false |}).1)
    (str "(Hello)") 0 = true
  /\ handleWordClick (str "...") 0
       {| reader := loaded hello_world; wordTranslation := None;
          isTranslatingWord := false |}
     = ({| reader := loaded hello_world; wordTranslation := None;
           isTranslatingWord := false |}, []).
Proof.
  split.
  - apply (proj1 (clicked_word_is_selected (str "Hello,") 0 _));
      [discriminate|]. split; reflexivity.
  - apply (proj2 (clicked_word_is_selected (str "...") 0 _)). reflexivity.
Defined.

(** X10. Word look-ups are not coalesced: a second click sends a second
    call while the first is in flight, clearing what was displayed; and
    the first response to arrive is displayed against the word selected
    last and ends the searching state, whichever call it answers. *)
Theorem word_lookups_race
  (w1 w2 : jsstring) (i1 i2 : nat) (v : WordView)
  (response : option jsstring) :
  cleanWord w1 <> [] -> cleanWord w2 <> [] ->
  let c1 := handleWordClick w1 i1 v in
  let c2 := handleWordClick w2 i2 c1.1 in
  let v3 := word_settled (Some response) c2.1 in
  c1.2 = [DefineWord (cleanWord w1)]
  /\ c2.2 = [DefineWord (cleanWord w2)]
  /\ wordTranslation c2.1 = None /\ isTranslatingWord c2.1 = true
  /\ selectedWord (reader v3) = Some (cleanWord w2, i2)
  /\ wordTranslation v3 = Some (from_option trim [] response)
  /\ isTranslatingWord v3 = false.
Proof.
  intros H1 H2. apply truthy_true in H1, H2.
  cbn zeta. unfold handleWordClick. rewrite H1. cbn [negb fst snd].
  rewrite H2. done.
Qed.

Lemma word_lookups_race_witness :
  selectedWord
    (reader
       (word_settled (Some (Some (str "bonjour")))
          (handleWordClick (str "World") 1
             (handleWordClick (str "Hello") 0
                {| reader := loaded hello_world; wordTranslation := None;
                   isTranslatingWord := false |}).1).1))
  = Some (str "World", 1%nat)
  /\ wordTranslation
       (word_settled (Some (Some (str "bonjour")))
          (handleWordClick (str "World") 1
             (handleWordClick (str "Hello") 0
                {| reader := loaded hello_world; wordTranslation := None;
                   isTranslatingWord := false |}).1).1)
     = Some (str "bonjour").
Proof.
  pose proof (word_lookups_race (str "Hello") (str "World") 0 1
                {| reader := loaded hello_world; wordTranslation := None;
                   isTranslatingWord := false |}
                (Some (str "bonjour"))
                ltac:(discriminate) ltac:(discriminate))
    as (_ & _ & _ & _ & H5 & H6 & _).
  split; [exact H5 | exact H6].
Defined.

(** ** Searching the transcript *)

(** Lower-casing of the letters A-Z alone: the ASCII part of the case
    table. *)
Definition lower_ascii (s : jsstring) : jsstring :=
  map (fun c => if (65 <=? c) && (c <=? 90) then c + 32 else c) s.

Lemma includes_empty s : includes s [] = true.
Proof. by destruct s. Qed.

(** X11. The list that decides whether the message for no match is shown
    and the test that decides whether a line is rendered agree: the lines
    counted are the lines rendered, so the message appears exactly when no
    line is rendered; with the empty query every line is rendered. *)
Theorem search_message_matches_rendering
  (toLowerCase : jsstring -> jsstring)
  (parsed_json : list Cue) (searchQuery : jsstring) :
  toLowerCase [] = [] ->
  filteredLines toLowerCase parsed_json searchQuery
  = filter (fun line => isVisible toLowerCase searchQuery line = true)
      parsed_json
  /\ (length (filteredLines toLowerCase parsed_json searchQuery) = 0%nat
      <-> Forall (fun line => isVisible toLowerCase searchQuery line = false)
            parsed_json)
  /\ filteredLines toLowerCase parsed_json [] = parsed_json.
Proof.
  intros H0.
  assert (V : forall q line,
             includes (toLowerCase (text line)) (toLowerCase q) = true
             <-> isVisible toLowerCase q line = true).
  { intros q line. unfold isVisible. rewrite orb_true_iff, eqb_nil.
    split; [auto|]. intros [->|H]; [|done].
    rewrite H0. apply includes_empty. }
  assert (E : forall q, filteredLines toLowerCase parsed_json q
                        = filter (fun line => isVisible toLowerCase q line = true)
                            parsed_json).
  { intros q. unfold filteredLines. apply list_filter_iff. intros line. apply V. }
  split; [apply E|]. split.
  - rewrite E, length_zero_iff_nil. split.
    + intros F. apply Forall_forall. intros line Hl.
      destruct (isVisible toLowerCase searchQuery line) eqn:I; [|done].
      assert (line ∈ filter (fun line => isVisible toLowerCase searchQuery line
                                         = true) parsed_json)
        by by apply list_elem_of_filter.
      rewrite F in H. by apply elem_of_nil in H.
    + clear E. induction 1 as [|line l Hl _ IH]; [done|].
      rewrite filter_cons. destruct (decide _) as [D|D]; [congruence | done].
  - rewrite E. clear E. induction parsed_json as [|line l IH]; [done|].
    rewrite filter_cons. destruct (decide _) as [D|D]; [by rewrite IH|].
    by destruct D.
Qed.

Lemma search_message_matches_rendering_witness :
  filteredLines lower_ascii hello_world (str "WOR")
  = filter (fun line => isVisible lower_ascii (str "WOR") line = true)
      hello_world.
Proof.
  exact (proj1 (search_message_matches_rendering lower_ascii hello_world
                  (str "WOR") eq_refl)).
Defined.

(** ** The time label of a line *)

(** [line.start.split('.')[0]], the label shown beside a line. *)
Definition time_label (line : Cue) : jsstring :=
  nth 0 (split PERIOD (start line)) [].

Lemma canonical_shape s :
  canonical s = true ->
  exists h1 h2 m1 m2 s1 s2 f1 f2 f3,
    s = [h1; h2; COLON; m1; m2; COLON; s1; s2; PERIOD; f1; f2; f3]
    /\ Forall (fun c => is_digit c = true) [h1; h2; m1; m2; s1; s2; f1; f2; f3].
Proof.
  do 13 (destruct s as [|? s]; try done). unfold canonical.
  rewrite !andb_true_iff, !N.eqb_eq.
  intros (((((((((((? & ?) & ->) & ?) & ?) & ->) & ?) & ?) & ->) & ?) & ?) & ?).
  eexists _, _, _, _, _, _, _, _, _. split; [done|].
  by repeat constructor.
Qed.

(** X12. For every cue of the .srt/.vtt parser the label shown beside the
    line is its start without the milliseconds: the first eight code
    units, two digits each for hours, minutes and seconds. *)
Theorem time_label_drops_milliseconds (lines : list jsstring) (c : Cue) :
  c ∈ srt_branch lines ->
  time_label c = take 8 (start c)
  /\ exists h1 h2 m1 m2 s1 s2,
       time_label c = [h1; h2; COLON; m1; m2; COLON; s1; s2]
       /\ Forall (fun d => is_digit d = true) [h1; h2; m1; m2; s1; s2].
Proof.
  intros Hc.
  assert (H : Forall (fun c => canonical (start c) = true) (srt_branch lines)).
  { apply srt_branch_holds with (L := fun _ => True).
    - intros line g1 g2 _ M. by apply timeMatch_canonical in M as [M _].
    - by intros.
    - by apply Forall_forall. }
  rewrite Forall_forall in H. specialize (H c Hc).
  apply canonical_shape in H
    as (h1 & h2 & m1 & m2 & s1 & s2 & f1 & f2 & f3 & E & D).
  unfold time_label. rewrite E.
  repeat match goal with
         | H : Forall _ (_ :: _) |- _ => apply Forall_cons in H as [? H]
         end.
  repeat match goal with
         | H : is_digit _ = true |- _ => apply is_digit_range in H
         end.
  assert (L : split PERIOD [h1; h2; COLON; m1; m2; COLON; s1; s2; PERIOD; f1; f2; f3]
              = [[h1; h2; COLON; m1; m2; COLON; s1; s2]; [f1; f2; f3]]).
  { unfold split, PERIOD, COLON.
    repeat match goal with
           | |- context [?x =? 46] =>
               destruct (N.eqb_spec x 46) as [?|_]; [lia|]
           end.
    done. }
  rewrite L. split; [done|].
  eexists _, _, _, _, _, _. split; [done|].
  repeat constructor; by apply is_digit_range.
Qed.

Lemma time_label_drops_milliseconds_witness :
  time_label {| start := str "00:00:01.000"; end_ := str "00:00:02.000";
                text := str "Hi" |}
  = take 8 (str "00:00:01.000").
Proof.
  exact (proj1 (time_label_drops_milliseconds
                  [str "00:00:01,000 --> 00:00:02,000"; str "Hi"]
                  {| start := str "00:00:01.000"; end_ := str "00:00:02.000";
                     text := str "Hi" |}
                  ltac:(vm_compute; apply list_elem_of_here))).
Defined.

(** ** Line translations, from request to settlement *)

(** What a call of [handleTranslate] that returns can do: nothing, or
    raise the flag and send the text of the line. *)
Lemma handleTranslate_cases index st cues st' reqs :
  data st = Some cues ->
  handleTranslate index st = Some (st', reqs) ->
  st' = st /\ reqs = []
  \/ cached st index = false /\ isTranslating st = false
     /\ st' = setIsTranslating true st
     /\ exists line, cues !! index = Some line /\ trim (text line) <> []
                     /\ reqs = [GenerateContent index (text line)].
Proof.
  intros D. unfold handleTranslate. rewrite D.
  destruct (cached st index) eqn:C; [intros [= <- <-]; by left|].
  destruct (isTranslating st) eqn:T; [intros [= <- <-]; by left|].
  cbn [orb]. destruct (cues !! index) as [line|]; cbn [mbind option_bind];
    [|done].
  destruct (truthy (trim (text line))) eqn:Y; cbn [negb];
    intros [= <- <-]; [|by left].
  right. repeat split; try done. exists line. repeat split; try done.
  by apply truthy_true.
Qed.

Lemma setIsTranslating_undo st :
  isTranslating st = false ->
  setIsTranslating false (setIsTranslating true st) = st.
Proof. destruct st. simpl. by intros ->. Qed.

(** X13. A translation that came back with text is cached under its line
    and releases the flag; from then on a request for that line is a
    no-op, and the entries of the other lines are as they were. *)
Theorem translation_is_cached
  (index : nat) (st st1 : ReaderState) (r : Request) (t : jsstring) :
  handleTranslate index st = Some (st1, [r]) ->
  trim t <> [] ->
  translations (translate_settled index (Some (Some t)) st1) !! index
  = Some (trim t)
  /\ isTranslating (translate_settled index (Some (Some t)) st1) = false
  /\ handleTranslate index (translate_settled index (Some (Some t)) st1)
     = Some (translate_settled index (Some (Some t)) st1, [])
  /\ forall j, j <> index ->
       translations (translate_settled index (Some (Some t)) st1) !! j
       = translations st !! j.
Proof.
  intros H Ht.
  destruct (handleTranslate_frame _ _ _ _ H) as (D & _ & _ & _ & Tr).
  split; [simpl; by rewrite lookup_insert_eq|]. split; [done|]. split.
  - unfold handleTranslate, cached. simpl.
    destruct (data st1); [|done].
    rewrite lookup_insert_eq. by apply truthy_true in Ht as ->.
  - intros j Hj. simpl. by rewrite lookup_insert_ne, Tr.
Qed.

Lemma translation_is_cached_witness :
  translations
    (translate_settled 0 (Some (Some (str " Salut ")))
       (setIsTranslating true (loaded one_line))) !! 0%nat
  = Some (str "Salut").
Proof.
  exact (proj1 (translation_is_cached 0 (loaded one_line)
                  (setIsTranslating true (loaded one_line))
                  (GenerateContent 0 (str "Hi")) (str " Salut ")
                  eq_refl ltac:(discriminate))).
Defined.

(** X14. A translation call that fails leaves no trace: the state is the
    one before the request, so the same request goes out again on the
    next click. *)
Theorem failed_translation_can_be_retried
  (index : nat) (st st1 : ReaderState) (r : Request) :
  handleTranslate index st = Some (st1, [r]) ->
  translate_settled index None st1 = st
  /\ handleTranslate index (translate_settled index None st1) = Some (st1, [r]).
Proof.
  intros H.
  assert (E : translate_settled index None st1 = st).
  { unfold handleTranslate in H. destruct (data st) as [cues|] eqn:D; [|done].
    destruct (cached st index); [done|].
    destruct (isTranslating st) eqn:T; [done|]. cbn [orb] in H.
    destruct (cues !! index) as [line|]; cbn [mbind option_bind] in H; [|done].
    destruct (negb _); [done|]. injection H as <- _.
    by apply setIsTranslating_undo. }
  by rewrite E.
Qed.

Lemma failed_translation_can_be_retried_witness :
  translate_settled 0 None (setIsTranslating true (loaded one_line))
  = loaded one_line.
Proof.
  exact (proj1 (failed_translation_can_be_retried 0 (loaded one_line)
                  (setIsTranslating true (loaded one_line))
                  (GenerateContent 0 (str "Hi")) eq_refl)).
Defined.

(** ** Reset, seek and the timer *)

(** X15. Reset stops the clock at 0, and the resolver that runs next
    makes the first line that contains time 0 active again; no line is
    active after a reset only when no line contains time 0. *)
Theorem reset_then_resolver (cues : list Cue) (st : ReaderState) :
  data st = Some cues ->
  isPlaying (resolve_active (resetPlayback st)) = false
  /\ currentTime (resolve_active (resetPlayback st)) = 0%float
  /\ activeLineIndex (resolve_active (resetPlayback st))
     = findIndex (contains 0%float) cues
  /\ (activeLineIndex (resolve_active (resetPlayback st)) = None
      <-> forall c, c ∈ cues -> contains 0%float c = false).
Proof.
  intros D.
  assert (A : activeLineIndex (resolve_active (resetPlayback st))
              = findIndex (contains 0%float) cues).
  { unfold resolve_active.
    cbn [resetPlayback data setActiveLineIndex setCurrentTime setIsPlaying
         currentTime activeLineIndex].
    rewrite D. destruct (findIndex (contains 0%float) cues) as [i|]; [|done].
    by destruct (decide _). }
  destruct (resolve_active_frame (resetPlayback st)) as (_ & P & T & _).
  split; [by rewrite P|]. split; [by rewrite T|]. split; [exact A|].
  rewrite A. apply findIndex_None.
Qed.

Lemma reset_then_resolver_witness :
  activeLineIndex
    (resolve_active
       (resetPlayback (setActiveLineIndex (Some 1%nat) (loaded hello_world))))
  = findIndex (contains 0%float) hello_world.
Proof.
  exact (proj1 (proj2 (proj2
           (reset_then_resolver hello_world
              (setActiveLineIndex (Some 1%nat) (loaded hello_world)) eq_refl)))).
Defined.

(** X16. While the clock is playing a seek does not move the timer: the
    tick that follows, be it after the slider or after a jump to a line,
    sets the elapsed time it would have set without the seek. *)
Theorem tick_overrides_seek (startTime now : number) (st : ReaderState) :
  (forall value,
      currentTime (tick startTime now (onSeekChange value st))
      = currentTime (tick startTime now st))
  /\ (forall index st' reqs,
        handleJumpToLine index st = Some (st', reqs) ->
        currentTime (tick startTime now st')
        = currentTime (tick startTime now st)
        /\ isPlaying (tick startTime now st')
           = isPlaying (tick startTime now st)).
Proof.
  split; [intros value; apply tick_after_seek|].
  intros index st' reqs H.
  assert (F : data st' = data st /\ isPlaying st' = isPlaying st).
  { unfold handleJumpToLine in H. destruct (data st) as [cues|] eqn:D.
    - destruct (cues !! index) as [line|]; cbn [mbind option_bind] in H; [|done].
      apply handleTranslate_frame in H as (D' & P' & _). split; [by rewrite D'|].
      by rewrite P'.
    - injection H as <- _. by rewrite D. }
  destruct F as [FD FP].
  assert (TD : totalDuration st' = totalDuration st).
  { unfold totalDuration. by rewrite FD. }
  unfold tick. rewrite TD. destruct (ge _ _); simpl; done.
Qed.

Lemma tick_overrides_seek_witness :
  currentTime
    (tick 0%float 1000%float
       (setIsTranslating true
          (setSelectedWord None
             (setActiveLineIndex (Some 1%nat)
                (setCurrentTime (2.5 + 0.01)%float
                   (setIsPlaying true (loaded hello_world)))))))
  = currentTime (tick 0%float 1000%float (setIsPlaying true (loaded hello_world))).
Proof.
  exact (proj1 (proj2 (tick_overrides_seek 0%float 1000%float
                         (setIsPlaying true (loaded hello_world)))
                  1%nat _ [GenerateContent 1 (str "World")] eq_refl)).
Defined.

(** ** What holds throughout a reading session *)

(** A call that was sent carries the text of its line, which is not
    blank. *)
Definition request_ok (cues : list Cue) (r : Request) : Prop :=
  match r with
  | GenerateContent index t =>
      exists line, cues !! index = Some line /\ t = text line /\ trim t <> []
  end.

(** What every event and every run of the resolver keep true. *)
Definition steady (cues : list Cue) (w : World) : Prop :=
  data (ui w) = Some cues
  /\ (forall i, activeLineIndex (ui w) = Some i -> (i < length cues)%nat)
  /\ (forall i, i ∈ pending w -> (i < length cues)%nat)
  /\ (forall i, is_Some (translations (ui w) !! i) -> (i < length cues)%nat)
  /\ (isTranslating (ui w) = false /\ pending w = []
      \/ isTranslating (ui w) = true /\ exists i, pending w = [i])
  /\ Forall (request_ok cues) (sent w).

Lemma resolve_active_index st cues i :
  data st = Some cues ->
  (forall j, activeLineIndex st = Some j -> (j < length cues)%nat) ->
  activeLineIndex (resolve_active st) = Some i -> (i < length cues)%nat.
Proof.
  intros D V. unfold resolve_active. rewrite D.
  destruct (findIndex (contains (currentTime st)) cues) as [k|] eqn:F; [|apply V].
  destruct (decide _); [apply V|]. simpl. intros [= <-].
  apply findIndex_Some in F as [(c & Hc & _) _]. by apply lookup_lt_Some in Hc.
Qed.

Lemma resolve_active_tracks st cues i :
  data st = Some cues ->
  first_containing cues (currentTime (resolve_active st)) i ->
  activeLineIndex (resolve_active st) = Some i.
Proof.
  intros D. destruct (resolve_active_frame st) as (_ & _ & -> & _).
  intros Hi. unfold resolve_active. rewrite D.
  destruct (findIndex (contains (currentTime st)) cues) as [k|] eqn:F.
  - apply findIndex_Some in F.
    rewrite (first_containing_unique _ _ _ _ Hi F).
    destruct (decide _) as [E|E]; [by rewrite E | done].
  - destruct Hi as [(c & Hc & Pc) _]. rewrite findIndex_None in F.
    rewrite F in Pc; [done|]. by eapply list_elem_of_lookup_2.
Qed.

Lemma jump_cases index st cues st' reqs :
  data st = Some cues ->
  handleJumpToLine index st = Some (st', reqs) ->
  data st' = Some cues /\ activeLineIndex st' = Some index
  /\ (index < length cues)%nat /\ translations st' = translations st
  /\ (isTranslating st' = isTranslating st /\ reqs = []
      \/ isTranslating st = false /\ isTranslating st' = true
         /\ exists line, cues !! index = Some line /\ trim (text line) <> []
                         /\ reqs = [GenerateContent index (text line)]).
Proof.
  intros D. unfold handleJumpToLine. rewrite D.
  destruct (cues !! index) as [line|] eqn:L; cbn [mbind option_bind]; [|done].
  intros H.
  destruct (handleTranslate_frame _ _ _ _ H) as (D' & _ & _ & A' & T').
  split; [by rewrite D'|]. split; [by rewrite A'|].
  split; [by apply lookup_lt_Some in L|]. split; [by rewrite T'|].
  apply (handleTranslate_cases _ _ cues) in H; [|done].
  destruct H as [[-> ->]|(_ & T & -> & line' & L' & Hne & ->)]; [by left|].
  right. split; [exact T|]. split; [done|].
  rewrite L in L'. injection L' as <-. by exists line.
Qed.

Lemma handle_steady cues e w : steady cues w -> steady cues (handle e w).
Proof.
  intros (D & A & P & C & F & S). destruct e as [s n|v|index| | |outcome].
  - (* tick *)
    assert (E : forall st, data (tick s n st) = data st
                  /\ activeLineIndex (tick s n st) = activeLineIndex st
                  /\ translations (tick s n st) = translations st
                  /\ isTranslating (tick s n st) = isTranslating st).
    { intros st. unfold tick. by destruct (ge _ _). }
    destruct (E (ui w)) as (E1 & E2 & E3 & E4).
    unfold steady. cbn [handle ui pending sent]. by rewrite E1, E2, E3, E4.
  - exact (conj D (conj A (conj P (conj C (conj F S))))).
  - (* jump *)
    cbn [handle]. destruct (handleJumpToLine index (ui w)) as [[st reqs]|] eqn:J;
      [|done].
    destruct (jump_cases _ _ _ _ _ D J) as (D' & A' & L & T' & R).
    unfold steady. cbn [ui pending sent]. split; [done|].
    split; [intros i; rewrite A'; by intros [= <-]|].
    destruct R as [[I ->]|(I & I' & line & Hl & Hne & ->)].
    + cbn [map]. rewrite !app_nil_r, T', I. done.
    + destruct F as [[_ Pw]|[Fw _]]; [|congruence]. rewrite Pw. cbn [map app].
      split; [by intros i ->%list_elem_of_singleton|].
      split; [by rewrite T'|]. split; [right; by eauto|].
      apply Forall_app. split; [done|]. apply Forall_singleton.
      by exists line.
  - exact (conj D (conj A (conj P (conj C (conj F S))))).
  - (* reset *)
    split; [exact D|]. split; [done|]. exact (conj P (conj C (conj F S))).
  - (* settlement *)
    cbn [handle]. destruct (pending w) as [|index rest] eqn:Pw;
      [unfold steady; rewrite Pw;
       exact (conj D (conj A (conj P (conj C (conj F S)))))|].
    unfold steady. cbn [ui pending sent].
    assert (rest = []) as ->.
    { destruct F as [[_ ?]|[_ [i ?]]]; congruence. }
    assert (Hi : (index < length cues)%nat) by (apply P; apply list_elem_of_here).
    destruct outcome as [response|]; simpl.
    + split; [done|]. split; [done|].
      split; [by intros i ?%elem_of_nil|]. split; [|by auto].
      intros i. destruct (decide (i = index)) as [->|Hne]; [done|].
      rewrite lookup_insert_ne by done. apply C.
    + split; [done|]. split; [done|].
      split; [by intros i ?%elem_of_nil|]. by auto.
Qed.

Lemma step_steady cues w e : steady cues w -> steady cues (step w e).
Proof.
  intros H. apply (handle_steady cues e) in H as (D & A & P & C & F & S).
  destruct (resolve_active_frame (ui (handle e w))) as (D' & _ & _ & T' & I').
  unfold steady, step. cbn [ui pending sent]. rewrite D', T', I'.
  split; [done|]. split; [|done].
  intros i. by apply resolve_active_index.
Qed.

Lemma run_steady cues events : steady cues (run cues events).
Proof.
  unfold run. induction events as [|e events IH] using rev_ind.
  - unfold steady, opened_doc. cbn [fold_left ui pending sent].
    destruct (resolve_active_frame (loaded cues)) as (D' & _ & _ & T' & I').
    rewrite D', T', I'. split; [done|].
    split; [intros i; by apply resolve_active_index|].
    split; [by intros i ?%elem_of_nil|].
    split; [intros i Hi; simpl in Hi; by apply lookup_empty_is_Some in Hi|].
    split; [by left | constructor].
  - rewrite fold_left_app. by apply step_steady.
Qed.

(** X17. Throughout a session, whatever the events, the active line is
    none or a line of the document, and whenever some line contains the
    elapsed time, the active line is the first such line. *)
Theorem active_line_tracks_time (cues : list Cue) (events : list Event) :
  (forall i, activeLineIndex (ui (run cues events)) = Some i ->
             (i < length cues)%nat)
  /\ (forall i,
        first_containing cues (currentTime (ui (run cues events))) i ->
        activeLineIndex (ui (run cues events)) = Some i).
Proof.
  split; [apply (run_steady cues events)|].
  unfold run. destruct events as [|e events _] using rev_ind.
  - intros i. by apply resolve_active_tracks.
  - rewrite fold_left_app. cbn [fold_left step ui]. intros i.
    apply resolve_active_tracks.
    apply (handle_steady cues e), (run_steady cues events).
Qed.


(** X19. The resolver's own update does not start it again for good: run
    on its result, it changes nothing. *)
Theorem resolver_settles_in_one_run (st : ReaderState) :
  resolve_active (resolve_active st) = resolve_active st.
Proof. apply resolve_active_idemp. Qed.

(** ** Timestamps that are not numbers *)

Lemma leb_nan_l (t : number) : PrimFloat.leb nan t = false.
Proof.
  rewrite leb_spec. change (Prim2SF nan) with S754_nan.
  unfold SFleb. by destruct (Prim2SF t).
Qed.

Lemma leb_nan_r (t : number) : PrimFloat.leb t nan = false.
Proof.
  rewrite leb_spec. change (Prim2SF nan) with S754_nan.
  unfold SFleb. by destruct (Prim2SF t).
Qed.

Lemma add_nan_r (x : number) : (x + nan)%float = nan.
Proof.
  rewrite <- (SF2Prim_Prim2SF (x + nan)), add_spec.
  change (Prim2SF nan) with S754_nan. unfold SF64add, SFadd.
  by destruct (Prim2SF x).
Qed.

(** X20. A timestamp with fewer than three colon-separated parts converts
    to NaN, and a cue whose start or end converts to NaN contains no
    elapsed time, so the resolver never selects it. *)
Theorem malformed_timestamp_is_never_active :
  (forall timeStr, (length (split COLON timeStr) < 3)%nat ->
                   timeToSeconds timeStr = nan)
  /\ (forall t c,
        timeToSeconds (start c) = nan \/ timeToSeconds (end_ c) = nan ->
        contains t c = false)
  /\ (forall st cues c,
        data st = Some cues -> c ∈ cues ->
        timeToSeconds (start c) = nan \/ timeToSeconds (end_ c) = nan ->
        forall i, cues !! i = Some c ->
                  ~ first_containing cues (currentTime st) i).
Proof.
  assert (H2 : forall t c,
             timeToSeconds (start c) = nan \/ timeToSeconds (end_ c) = nan ->
             contains t c = false).
  { intros t c [E|E]; unfold contains, ge, le; rewrite E.
    - by rewrite leb_nan_l.
    - by rewrite leb_nan_r, andb_false_r. }
  split; [|split; [exact H2|]].
  - intros timeStr H. unfold timeToSeconds.
    rewrite (lookup_ge_None_2 (split COLON timeStr) 2) by lia.
    apply add_nan_r.
  - intros st cues c _ _ Hn i Hi [(c' & Hc' & Pc) _].
    rewrite Hi in Hc'. injection Hc' as <-. by rewrite H2 in Pc.
Qed.

Lemma malformed_timestamp_is_never_active_witness :
  timeToSeconds (str "01:30") = nan
  /\ contains 1%float
       {| start := str "00:00"; end_ := str "00:00:02.000"; text := str "x" |}
     = false.
Proof.
  split.
  - apply (proj1 malformed_timestamp_is_never_active).
    vm_compute. lia.
  - apply (proj1 (proj2 malformed_timestamp_is_never_active)).
    left. reflexivity.
Defined.

(** X21. When the end of the last cue converts to NaN the timer never
    stops by itself: every tick stores the recomputed elapsed time and
    leaves the clock playing. *)
Theorem timer_without_end (startTime now : number) (st : ReaderState) :
  totalDuration st = nan ->
  tick startTime now st = setCurrentTime ((now - startTime) / 1000)%float st
  /\ isPlaying (tick startTime now st) = isPlaying st.
Proof.
  intros H. unfold tick, ge. rewrite H, leb_nan_l. done.
Qed.

Lemma timer_without_end_witness :
  isPlaying
    (tick 0%float 9000000%float
       (setIsPlaying true
          (loaded [ {| start := str "00:00:01.000"; end_ := str "end";
                       text := str "x" |} ])))
  = true.
Proof.
  exact (proj2 (timer_without_end 0%float 9000000%float
                  (setIsPlaying true
                     (loaded [ {| start := str "00:00:01.000";
                                  end_ := str "end"; text := str "x" |} ]))
                  eq_refl)).
Defined.

(** ** Timecode lines with more on them *)

Lemma match_prefix_app p s g r post :
  match_prefix p s = Some (g, r) ->
  match_prefix p (s ++ post) = Some (g, r ++ post).
Proof.
  revert s g r. induction p as [|cl p IH]; intros s g r; simpl.
  { by intros [= <- <-]. }
  destruct s as [|c s]; [done|]. simpl. destruct (cl c); [|done].
  destruct (match_prefix p s) as [[m r']|] eqn:M; [|done].
  intros [= <- <-]. by rewrite (IH _ _ _ M).
Qed.

Lemma timeRegex_here_app s g post :
  timeRegex_here s = Some g -> timeRegex_here (s ++ post) = Some g.
Proof.
  unfold timeRegex_here. intros H.
  destruct (match_prefix timestamp_re s) as [[a r1]|] eqn:M1;
    cbn [mbind option_bind] in H; [|done].
  rewrite (match_prefix_app _ _ _ _ post M1). cbn [mbind option_bind].
  destruct (match_prefix (lit " --> ") r1) as [[b r2]|] eqn:M2;
    cbn [mbind option_bind] in H; [|done].
  rewrite (match_prefix_app _ _ _ _ post M2). cbn [mbind option_bind].
  destruct (match_prefix timestamp_re r2) as [[c r3]|] eqn:M3;
    cbn [mbind option_bind] in H; [|done].
  rewrite (match_prefix_app _ _ _ _ post M3). cbn [mbind option_bind].
  done.
Qed.

Lemma timeMatch_here s g : timeRegex_here s = Some g -> timeMatch s = Some g.
Proof. intros H. destruct s; cbn [timeMatch]; by rewrite H. Qed.

(** X22. A line is a timecode line as soon as a timecode stands somewhere
    on it: what follows the timecode (cue settings of a .vtt file) is
    ignored, and what precedes it does not prevent the match. *)
Theorem timecode_found_anywhere
  (pre tc post : jsstring) (g : jsstring * jsstring) :
  timeRegex_here tc = Some g ->
  timeMatch (tc ++ post) = Some g
  /\ is_Some (timeMatch (pre ++ tc ++ post)).
Proof.
  intros H. apply (timeRegex_here_app _ _ post) in H.
  split; [by apply timeMatch_here|].
  induction pre as [|c pre IH];
    [change ([] ++ tc ++ post) with (tc ++ post);
     by rewrite (timeMatch_here _ _ H)|].
  cbn [app timeMatch]. by destruct (timeRegex_here (c :: pre ++ tc ++ post)).
Qed.

Lemma timecode_found_anywhere_witness :
  timeMatch (str "00:00:01.000 --> 00:00:02.000" ++ str " align:start")
  = Some (str "00:00:01.000", str "00:00:02.000").
Proof.
  exact (proj1 (timecode_found_anywhere [] (str "00:00:01.000 --> 00:00:02.000")
                  (str " align:start")
                  (str "00:00:01.000", str "00:00:02.000") eq_refl)).
Defined.
